(** * The Pokémon record store service (index.js)

    A shallow embedding of the Express handlers of [index.js] and of the
    ECMAScript built-ins they call, followed by the properties of the
    service.

    Conventions of the embedding.
    - A JavaScript object is a finite map from property names to values
      ([gmap string value]); [undefined] is the absence of a value
      ([None] at a lookup).  Every object has the prototype
      [Object.prototype]: [Object.assign] hands a key [__proto__] of its
      source to the setter that this prototype defines, unless the target
      owns the key (see [Object_assign]).  A body that holds an object or
      [null] under [__proto__] makes that setter replace the prototype of
      the record; what the service does with such a record afterwards is
      outside the model.
    - Numbers are [NaN] and the integers that a double holds.  The numbers
      the handlers compute from a collection (lengths, indexes, page counts)
      are small integers, on which the arithmetic of doubles is exact; the
      addition that makes a new id rounds as doubles do (see [number_succ]).
      [Infinity] is outside the model: [JSON_parse] follows [JSON.parse] on
      the documents whose numbers are integers that a double holds (see
      [exact]), and [parseInt] follows the built-in on the texts whose
      number a double holds.
    - A string is a sequence of code units; the built-ins that read
      characters ([parseInt]) look at ASCII only.  Unicode case mapping and
      the numeric-literal grammar of [Number(string)] are supplied by the
      runtime, see [Runtime].
    - The text of [data/pokemons.json] is identified with the JSON document
      it denotes ([json]); [JSON_stringify] and [JSON_parse] go between
      values and documents.
    - A handler receives what Express hands it: [req.query.page] as a text
      that may be missing, [req.params.id] and [req.params.name] as texts,
      [req.body] as the object read by [express.json()].  Its answer is the
      status and the value given to [res.json], or the exception that
      escapes it. *)

From stdpp Require Import gmap strings list fin_maps pretty.
From Stdlib Require Import ZArith Lia Ascii.

Local Open Scope Z_scope.

(** * Values *)

Inductive number :=
| NaN
| Int (n : Z).

#[warnings="-register-all"]
Inductive value :=
| VNull
| VBool (b : bool)
| VNum (n : number)
| VStr (s : string)
| VArr (l : list value)
| VObj (m : gmap string value).

(** A record of the store: a JavaScript object. *)
Abbreviation record := (gmap string value).

(** A JSON document: no [NaN], no [undefined]. *)
#[warnings="-register-all"]
Inductive json :=
| JNull
| JBool (b : bool)
| JNum (n : Z)
| JStr (s : string)
| JArr (l : list json)
| JObj (m : gmap string json).

Global Instance number_eq_dec : EqDecision number.
Proof. solve_decision. Defined.

(** * Built-ins of the language *)

(** [ToBoolean]: what [!x] and [x || y] test. *)
Definition ToBoolean (v : option value) : bool :=
  match v with
  | None => false
  | Some VNull => false
  | Some (VBool b) => b
  | Some (VNum NaN) => false
  | Some (VNum (Int n)) => negb (n =? 0)
  | Some (VStr s) => negb (String.eqb s "")
  | Some (VArr _) => true
  | Some (VObj _) => true
  end.

(** [v === n] for a number [n]: no conversion, and [NaN] equals nothing. *)
Definition strict_equals_number (v : option value) (n : number) : bool :=
  match v, n with
  | Some (VNum (Int a)), Int b => a =? b
  | _, _ => false
  end.

(** ** Strings *)

Definition is_whitespace (c : Ascii.ascii) : bool :=
  let n := Ascii.N_of_ascii c in
  ((n =? 9) || (n =? 10) || (n =? 11) || (n =? 12) || (n =? 13) || (n =? 32))%N.

Fixpoint trim_start (s : string) : string :=
  match s with
  | String c s' => if is_whitespace c then trim_start s' else s
  | EmptyString => EmptyString
  end.

(** The value of [c] as a digit in base [radix], if it is one. *)
Definition digit_of (radix : Z) (c : Ascii.ascii) : option Z :=
  let n := Z.of_N (Ascii.N_of_ascii c) in
  let d :=
    if (48 <=? n) && (n <=? 57) then Some (n - 48)
    else if (97 <=? n) && (n <=? 122) then Some (n - 87)
    else if (65 <=? n) && (n <=? 90) then Some (n - 55)
    else None in
  match d with
  | Some v => if v <? radix then Some v else None
  | None => None
  end.

(** The longest prefix of digits, read in base [radix]; [acc] is [None]
    until a digit has been read. *)
Fixpoint parse_digits (radix : Z) (s : string) (acc : option Z) : option Z :=
  match s with
  | String c s' =>
      match digit_of radix c with
      | Some d =>
          parse_digits radix s'
            (Some (match acc with Some a => a * radix + d | None => d end))
      | None => acc
      end
  | EmptyString => acc
  end.

(** [parseInt(s)] with no radix argument. *)
Definition parseInt (s : string) : number :=
  let s1 := trim_start s in
  let '(sign, s2) :=
    match s1 with
    | String "-"%char r => (-1, r)
    | String "+"%char r => (1, r)
    | _ => (1, s1)
    end in
  let '(radix, s3) :=
    match s2 with
    | String "0"%char (String "x"%char r) => (16, r)
    | String "0"%char (String "X"%char r) => (16, r)
    | _ => (10, s2)
    end in
  match parse_digits radix s3 None with
  | Some m => Int (sign * m)
  | None => NaN
  end.

(** [ToString] of a request parameter that may be missing. *)
Definition ToString_param (p : option string) : string :=
  default "undefined" p.

Fixpoint String_startsWith (s sub : string) {struct sub} : bool :=
  match sub, s with
  | EmptyString, _ => true
  | String c sub', String d s' => if Ascii.eqb c d then String_startsWith s' sub' else false
  | String _ _, EmptyString => false
  end.

(** [s.includes(sub)] *)
Fixpoint String_includes (s sub : string) : bool :=
  String_startsWith s sub ||
  match s with
  | String _ s' => String_includes s' sub
  | EmptyString => false
  end.

(** ** Arrays and numbers *)

(** [l.slice(start, end)], negative indexes counting from the end. *)
Definition Array_slice {A} (l : list A) (start end_ : Z) : list A :=
  let len := Z.of_nat (length l) in
  let k := if start <? 0 then Z.max (len + start) 0 else Z.min start len in
  let final := if end_ <? 0 then Z.max (len + end_) 0 else Z.min end_ len in
  take (Z.to_nat (final - k)) (drop (Z.to_nat k) l).

(** [l.filter(f)] for a callback that may throw: the first exception ends
    the traversal. *)
Fixpoint Array_filter {A} (f : A → option bool) (l : list A) : option (list A) :=
  match l with
  | [] => Some []
  | x :: l' =>
      match f x with
      | None => None
      | Some b =>
          match Array_filter f l' with
          | None => None
          | Some r => Some (if b then x :: r else r)
          end
      end
  end.

(** [Math.ceil(a / b)] for integers [a] and [b > 0]. *)
Definition Math_ceil_div (a b : Z) : Z :=
  if a mod b =? 0 then a / b else a / b + 1.

(** [Math.max(x, ...xs)] on converted arguments: [NaN] is contagious. *)
Definition number_max (x y : number) : number :=
  match x, y with
  | Int a, Int b => Int (Z.max a b)
  | _, _ => NaN
  end.

Definition Math_max (x : number) (xs : list number) : number :=
  foldl number_max x xs.

(** The double nearest to the integer [n], for [n] below 2^1024 in
    magnitude: [n] itself below 2^53, and beyond that the nearest multiple of
    the spacing of the doubles around [n], a tie going to the even
    significand. *)
Definition double_of_Z (n : Z) : Z :=
  let x := Z.abs n in
  if x <? 2 ^ 53 then n
  else
    let e := Z.log2 x - 52 in
    let q := x / 2 ^ e in
    let r := x mod 2 ^ e in
    let half := 2 ^ (e - 1) in
    let q := if (half <? r) || ((r =? half) && Z.odd q) then q + 1 else q in
    Z.sgn n * (q * 2 ^ e).

(** [x + 1], an addition of doubles: past 2^53 the sum is rounded. *)
Definition number_succ (x : number) : number :=
  match x with
  | Int a => Int (double_of_Z (a + 1))
  | NaN => NaN
  end.

(** ** Conversions *)

(** What the host supplies: Unicode lower-casing
    ([String.prototype.toLowerCase]) and the reading of a string as a
    numeric literal ([Number(s)]). *)
Class Runtime := {
  toLowerCase : string → string;
  StringToNumber : string → number
}.

(** [ToString(v)].  An array is joined with commas, [null] elements giving
    the empty string; a plain object prints as [[object Object]], unless an
    own [toString] property, which cannot be called, hides the inherited
    method: then the conversion throws ([None]). *)
Fixpoint ToString (v : value) : option string :=
  match v with
  | VNull => Some "null"
  | VBool b => Some (if b then "true" else "false")
  | VNum NaN => Some "NaN"
  | VNum (Int n) => Some (pretty n)
  | VStr s => Some s
  | VArr l =>
      (fix join (l : list value) : option string :=
         match l with
         | [] => Some ""
         | x :: l' =>
             match (match x with VNull => Some "" | _ => ToString x end) with
             | None => None
             | Some s =>
                 match l' with
                 | [] => Some s
                 | _ :: _ =>
                     match join l' with
                     | None => None
                     | Some r => Some (s +:+ "," +:+ r)
                     end
                 end
             end
         end) l
  | VObj m => if decide (is_Some (m !! "toString")) then None else Some "[object Object]"
  end.

(** [ToNumber(v)], as [Math.max] applies it to each argument; [None] when
    the conversion throws. *)
Definition ToNumber `{Runtime} (v : option value) : option number :=
  match v with
  | None => Some NaN
  | Some VNull => Some (Int 0)
  | Some (VBool b) => Some (Int (if b then 1 else 0))
  | Some (VNum n) => Some n
  | Some (VStr s) => Some (StringToNumber s)
  | Some v => StringToNumber <$> ToString v
  end.

(** ** JSON and objects *)

(** [JSON.parse], on a document whose numbers are integers that a double
    holds. *)
Fixpoint JSON_parse (j : json) : value :=
  match j with
  | JNull => VNull
  | JBool b => VBool b
  | JNum n => VNum (Int n)
  | JStr s => VStr s
  | JArr l => VArr (JSON_parse <$> l)
  | JObj m => VObj (JSON_parse <$> m)
  end.

(** [JSON.stringify]: a [NaN] is written as [null]. *)
Fixpoint JSON_stringify (v : value) : json :=
  match v with
  | VNull => JNull
  | VBool b => JBool b
  | VNum NaN => JNull
  | VNum (Int n) => JNum n
  | VStr s => JStr s
  | VArr l => JArr (JSON_stringify <$> l)
  | VObj m => JObj (JSON_stringify <$> m)
  end.

(** [Object.assign(target, source)]: each property of [source] is written to
    [target] by an assignment [target[k] = v].  For the key [__proto__] the
    assignment writes a property only when [target] owns one of that name;
    otherwise it runs the setter of [Object.prototype], and [target] gets no
    property. *)
Definition Object_assign (target source : record) : record :=
  (if decide (is_Some (target !! "__proto__")) then source
   else delete "__proto__" source) ∪ target.

(** [v.k] for a property name [k] that no prototype defines: [None] when
    the access throws ([v] is [undefined] or [null]), [Some None] when it
    yields [undefined]. *)
Definition get_property (v : option value) (k : string) : option (option value) :=
  match v with
  | None => None
  | Some VNull => None
  | Some (VObj m) => Some (m !! k)
  | Some _ => Some None
  end.

(** [v.toLowerCase().includes(sub)]: only a string has the method. *)
Definition toLowerCase_includes `{Runtime} (v : option value) (sub : string) : option bool :=
  match v with
  | Some (VStr s) => Some (String_includes (toLowerCase s) sub)
  | _ => None
  end.

(** [a || b] where either side may throw; [b] is not evaluated when [a]
    holds. *)
Definition or_else (a b : option bool) : option bool :=
  match a with
  | None => None
  | Some true => Some true
  | Some false => b
  end.

(** * The service *)

(** The process state: the array [pokemons] and the document held by
    [data/pokemons.json]. *)
Record state := {
  pokemons : list record;
  pokemons_json : json
}.

(** What a handler does with a request: it sends a status and a JSON body,
    or a [TypeError] escapes it, the one exception that the evaluation of a
    handler raises when the file system works. *)
Inductive outcome :=
| res_json (status : Z) (body : value)
| TypeError.

(** [writeFileSync(join(__dirname, 'data/pokemons.json'),
    JSON.stringify(pokemons, null, 2))], on a file system that works: the
    call returns, and the file holds the text. *)
Definition writeFileSync (st : state) : state :=
  {| pokemons := pokemons st;
     pokemons_json := JSON_stringify (VArr (VObj <$> pokemons st)) |}.

(** An update of the array in memory; the file is not touched. *)
Definition set_pokemons (st : state) (pokemons' : list record) : state :=
  {| pokemons := pokemons'; pokemons_json := pokemons_json st |}.

Definition limit : Z := 20.

(** [parseInt(req.query.page) || 1] *)
Definition page_of (query_page : option string) : Z :=
  match parseInt (ToString_param query_page) with
  | Int p => if ToBoolean (Some (VNum (Int p))) then p else 1
  | NaN => 1
  end.

Definition totalPages_of (pokemons : list record) : Z :=
  Math_ceil_div (Z.of_nat (length pokemons)) limit.

(** GET /api/pokemons *)
Definition get_api_pokemons (query_page : option string) (pokemons : list record) : outcome :=
  let page := page_of query_page in
  let startIndex := (page - 1) * limit in
  let endIndex := startIndex + limit in
  let totalPokemons := Z.of_nat (length pokemons) in
  let totalPages := Math_ceil_div totalPokemons limit in
  let paginatedPokemons := Array_slice pokemons startIndex endIndex in
  if (totalPages <? page) && (0 <? totalPages) then
    res_json 400 (VObj {[
      "message" := VStr ("La page " +:+ pretty page +:+
                         " n'existe pas. Nombre total de pages: " +:+ pretty totalPages) ]})
  else
    res_json 200 (VObj {[
      "data" := VArr (VObj <$> paginatedPokemons);
      "pagination" := VObj {[
        "currentPage" := VNum (Int page);
        "totalPages" := VNum (Int totalPages);
        "totalPokemons" := VNum (Int totalPokemons);
        "itemsPerPage" := VNum (Int limit);
        "hasNextPage" := VBool (page <? totalPages);
        "hasPreviousPage" := VBool (1 <? page) ]} ]}).

(** [p.name.<lang>.toLowerCase().includes(searchName)] *)
Definition name_includes `{Runtime} (p : record) (lang searchName : string) : option bool :=
  match get_property (p !! "name") lang with
  | None => None
  | Some v => toLowerCase_includes v searchName
  end.

(** The callback of the search filter. *)
Definition name_matches `{Runtime} (searchName : string) (p : record) : option bool :=
  or_else (name_includes p "english" searchName)
    (or_else (name_includes p "french" searchName)
       (or_else (name_includes p "japanese" searchName)
          (name_includes p "chinese" searchName))).

(** GET /api/pokemons/search/:name *)
Definition get_api_pokemons_search `{Runtime} (name : string) (pokemons : list record) : outcome :=
  let searchName := toLowerCase name in
  match Array_filter (name_matches searchName) pokemons with
  | None => TypeError
  | Some results =>
      if (length results =? 0)%nat then
        res_json 404 (VObj {[
          "message" := VStr ("Aucun Pokémon trouvé avec le nom: " +:+ name);
          "results" := VArr [] ]})
      else
        res_json 200 (VObj {[
          "message" := VStr (pretty (length results) +:+ " Pokémon(s) trouvé(s)");
          "results" := VArr (VObj <$> results) ]})
  end.

(** [p => p.id === parseInt(req.params.id)] *)
Definition has_id (id : string) (p : record) : Prop :=
  strict_equals_number (p !! "id") (parseInt id).

Global Instance has_id_dec id p : Decision (has_id id p).
Proof. unfold has_id. apply _. Defined.

Definition not_found : outcome :=
  res_json 404 (VObj {[ "message" := VStr "Pokémon non trouvé" ]}).

(** GET /api/pokemons/:id *)
Definition get_api_pokemons_id (id : string) (pokemons : list record) : outcome :=
  match list_find (has_id id) pokemons with
  | None => not_found
  | Some (_, pokemon) => res_json 200 (VObj pokemon)
  end.

(** [pokemons.length > 0 ? Math.max(...pokemons.map(p => p.id)) + 1 : 1];
    [None] when a conversion inside [Math.max] throws. *)
Definition newId_of `{Runtime} (pokemons : list record) : option number :=
  match (λ p : record, p !! "id") <$> pokemons with
  | [] => Some (Int 1)
  | v :: vs =>
      match ToNumber v, mapM ToNumber vs with
      | Some x, Some xs => Some (number_succ (Math_max x xs))
      | _, _ => None
      end
  end.

(** POST /api/pokemons *)
Definition post_api_pokemons `{Runtime} (body : record) (st : state) : state * outcome :=
  let newPokemon := body in
  if negb (ToBoolean (newPokemon !! "name"))
     || negb (ToBoolean (newPokemon !! "type"))
     || negb (ToBoolean (newPokemon !! "base")) then
    (st, res_json 400 (VObj {[ "message" := VStr "Données invalides" ]}))
  else
    match newId_of (pokemons st) with
    | None => (st, TypeError)
    | Some newId =>
        let newPokemon := <["id" := VNum newId]> newPokemon in
        let st := set_pokemons st (pokemons st ++ [newPokemon]) in
        (writeFileSync st, res_json 201 (VObj newPokemon))
    end.

(** PUT /api/pokemons/:id *)
Definition put_api_pokemons_id (id : string) (body : record) (st : state) : state * outcome :=
  match list_find (has_id id) (pokemons st) with
  | None => (st, not_found)
  | Some (index, pokemon) =>
      let pokemon := Object_assign pokemon body in
      let st := set_pokemons st (<[index := pokemon]> (pokemons st)) in
      (writeFileSync st, res_json 200 (VObj pokemon))
  end.

(** DELETE /api/pokemons/:id *)
Definition delete_api_pokemons_id (id : string) (st : state) : state * outcome :=
  match list_find (has_id id) (pokemons st) with
  | None => (st, not_found)
  | Some (index, deletedPokemon) =>
      let st := set_pokemons st (delete index (pokemons st)) in
      (writeFileSync st,
       res_json 200 (VObj {[
         "message" := VStr "Pokémon supprimé";
         "pokemon" := VObj deletedPokemon ]}))
  end.

(** * The application *)

(** A request that reaches one of the six routes on the store, with what the
    route reads of it.  A body is the JSON object of the request, before
    [express.json()] has read it. *)
Inductive request :=
| GET_pokemons (page : option string)
| GET_pokemons_search (name : string)
| GET_pokemons_id (id : string)
| POST_pokemons (body : gmap string json)
| PUT_pokemons_id (id : string) (body : gmap string json)
| DELETE_pokemons_id (id : string).

(** [app.use(express.json())]: the body as the handlers see it. *)
Definition express_json (body : gmap string json) : record :=
  JSON_parse <$> body.

(** The routes, each with its handler. *)
Definition app `{Runtime} (req : request) (st : state) : state * outcome :=
  match req with
  | GET_pokemons page => (st, get_api_pokemons page (pokemons st))
  | GET_pokemons_search name => (st, get_api_pokemons_search name (pokemons st))
  | GET_pokemons_id id => (st, get_api_pokemons_id id (pokemons st))
  | POST_pokemons body => post_api_pokemons (express_json body) st
  | PUT_pokemons_id id body => put_api_pokemons_id id (express_json body) st
  | DELETE_pokemons_id id => delete_api_pokemons_id id st
  end.

(** The requests of a session, served one after the other; an exception
    ends its request, not the process. *)
Fixpoint run `{Runtime} (reqs : list request) (st : state) : state * list outcome :=
  match reqs with
  | [] => (st, [])
  | req :: reqs =>
      let '(st, o) := app req st in
      let '(st, os) := run reqs st in
      (st, o :: os)
  end.

(** [let pokemons = JSON.parse(readFileSync(join(__dirname,
    'data/pokemons.json'), 'utf8'))], for a file that holds an array of
    objects; any other document gives no store of records. *)
Definition startup (file : json) : option state :=
  match file with
  | JArr l =>
      match mapM (λ j, match j with JObj m => Some (JSON_parse <$> m) | _ => None end) l with
      | Some records => Some {| pokemons := records; pokemons_json := file |}
      | None => None
      end
  | _ => None
  end.

(** * A runtime for ASCII text

    Lower-casing of the letters A-Z, and [Number(s)] on the integer literals
    (decimal, or with a [0x], [0o] or [0b] prefix) between optional white
    space; literals with a fraction or an exponent denote numbers outside
    the model.  It is the runtime the examples run on. *)

Definition ascii_toLowerCase_char (c : Ascii.ascii) : Ascii.ascii :=
  let n := Ascii.N_of_ascii c in
  if ((65 <=? n) && (n <=? 90))%N then Ascii.ascii_of_N (n + 32) else c.

Fixpoint ascii_toLowerCase (s : string) : string :=
  match s with
  | String c s' => String (ascii_toLowerCase_char c) (ascii_toLowerCase s')
  | EmptyString => EmptyString
  end.

Definition trim (s : string) : string :=
  String.rev (trim_start (String.rev (trim_start s))).

(** An unsigned literal all of whose characters are digits of the base. *)
Fixpoint all_digits (radix : Z) (s : string) (acc : Z) : option Z :=
  match s with
  | String c s' =>
      match digit_of radix c with
      | Some d => all_digits radix s' (acc * radix + d)
      | None => None
      end
  | EmptyString => Some acc
  end.

Definition literal (radix : Z) (s : string) : number :=
  match s with
  | EmptyString => NaN
  | _ => match all_digits radix s 0 with Some n => Int n | None => NaN end
  end.

Definition ascii_StringToNumber (s : string) : number :=
  match trim s with
  | EmptyString => Int 0
  | String "0"%char (String "x"%char r) | String "0"%char (String "X"%char r) => literal 16 r
  | String "0"%char (String "o"%char r) | String "0"%char (String "O"%char r) => literal 8 r
  | String "0"%char (String "b"%char r) | String "0"%char (String "B"%char r) => literal 2 r
  | String "-"%char r =>
      match literal 10 r with Int n => Int (- n) | NaN => NaN end
  | String "+"%char r => literal 10 r
  | t => literal 10 t
  end.

Definition ascii_runtime : Runtime :=
  {| toLowerCase := ascii_toLowerCase; StringToNumber := ascii_StringToNumber |}.

(** * Vocabulary of the properties *)

(** The answer to a page that is not refused. *)
Definition page_response (page : Z) (pokemons paginatedPokemons : list record) : outcome :=
  res_json 200 (VObj {[
    "data" := VArr (VObj <$> paginatedPokemons);
    "pagination" := VObj {[
      "currentPage" := VNum (Int page);
      "totalPages" := VNum (Int (totalPages_of pokemons));
      "totalPokemons" := VNum (Int (Z.of_nat (length pokemons)));
      "itemsPerPage" := VNum (Int 20);
      "hasNextPage" := VBool (page <? totalPages_of pokemons);
      "hasPreviousPage" := VBool (1 <? page) ]} ]}).

(** The ids of the records, in store order. *)
Definition ids_of (pokemons : list record) : list (option value) :=
  (λ p : record, p !! "id") <$> pokemons.

Definition id_values (ns : list Z) : list (option value) :=
  (λ n, Some (VNum (Int n))) <$> ns.

(** [i] is the index of the first record of [pokemons] whose id is [n]. *)
Definition first_with_id (n : Z) (pokemons : list record) (i : nat) (p : record) : Prop :=
  pokemons !! i = Some p ∧ p !! "id" = Some (VNum (Int n)) ∧
  ∀ j q, pokemons !! j = Some q → (j < i)%nat → q !! "id" ≠ Some (VNum (Int n)).

Definition no_record_with_id (n : Z) (pokemons : list record) : Prop :=
  ∀ p, p ∈ pokemons → p !! "id" ≠ Some (VNum (Int n)).

(** [sub] occurs in [s]. *)
Definition substring (sub s : string) : Prop :=
  ∃ pre post, s = pre +:+ sub +:+ post.

(** [String_includes] decides [substring]. *)

Lemma String_startsWith_spec (s sub : string) :
  String_startsWith s sub = true ↔ ∃ post, s = sub +:+ post.
Proof.
  revert s. induction sub as [|c sub IH]; intros s; simpl.
  - split; [intros _; by exists s|done].
  - destruct s as [|d s].
    + split; [done|]. intros [post Hpost]. discriminate Hpost.
    + destruct (Ascii.eqb_spec c d) as [->|Hne].
      * rewrite IH. split; intros [post Hpost]; exists post; [by rewrite Hpost|].
        by injection Hpost.
      * split; [done|]. intros [post Hpost]. injection Hpost as Hd _. congruence.
Qed.

Lemma String_includes_spec (s sub : string) :
  String_includes s sub = true ↔ substring sub s.
Proof.
  unfold substring. induction s as [|d s IH]; simpl.
  - rewrite orb_false_r, String_startsWith_spec. split.
    + intros [post Hpost]. by exists "", post.
    + intros ([|c pre] & post & Hpost); [by exists post|discriminate Hpost].
  - rewrite orb_true_iff, IH, String_startsWith_spec. split.
    + intros [[post Hpost]|(pre & post & Hpost)].
      * by exists "", post.
      * exists (String d pre), post. simpl. by rewrite Hpost.
    + intros ([|c pre] & post & Hpost).
      * left. by exists post.
      * right. injection Hpost as _ Hs. by exists pre, post.
Qed.

Global Instance substring_dec (sub s : string) : Decision (substring sub s).
Proof.
  refine (cast_if (decide (String_includes s sub = true)));
    by rewrite <-String_includes_spec.
Defined.

(** The four language fields that the search reads, in the order it reads
    them. *)
Definition language_fields : list string :=
  ["english"; "french"; "japanese"; "chinese"].

(** The string that [p.name] holds for a language, if it holds one. *)
Definition name_value (p : record) (lang : string) : option string :=
  match p !! "name" with
  | Some (VObj m) =>
      match m !! lang with
      | Some (VStr s) => Some s
      | _ => None
      end
  | _ => None
  end.

(** The name of [p] in language [lang] contains [q], letter case aside. *)
Definition name_contains `{Runtime} (q : string) (p : record) (lang : string) : Prop :=
  match name_value p lang with
  | Some s => substring (toLowerCase q) (toLowerCase s)
  | None => False
  end.

Global Instance name_contains_dec `{Runtime} q p lang : Decision (name_contains q p lang).
Proof. unfold name_contains. destruct (name_value p lang); apply _. Defined.

(** Some language value of the name of [p] contains [q]. *)
Definition matches `{Runtime} (q : string) (p : record) : Prop :=
  Exists (name_contains q p) language_fields.

Global Instance matches_dec `{Runtime} q p : Decision (matches q p).
Proof. unfold matches. apply _. Defined.

(** The name of [p] holds a string for each of the four languages. *)
Definition well_named (p : record) : Prop :=
  Forall (λ lang, is_Some (name_value p lang)) language_fields.

(** The answer of the search when the filter returns [results]. *)
Definition search_response (name : string) (results : list record) : outcome :=
  if decide (results = []) then
    res_json 404 (VObj {[
      "message" := VStr ("Aucun Pokémon trouvé avec le nom: " +:+ name);
      "results" := VArr [] ]})
  else
    res_json 200 (VObj {[
      "message" := VStr (pretty (length results) +:+ " Pokémon(s) trouvé(s)");
      "results" := VArr (VObj <$> results) ]}).

(** The number of constructors of a document, for induction under arrays and
    objects. *)
Fixpoint json_size (j : json) : nat :=
  match j with
  | JArr l => S (sum_list_with json_size l)
  | JObj m => S (map_fold (λ _ j' acc, json_size j' + acc)%nat 0%nat m)
  | _ => 1%nat
  end.

(** What the program reads back from a document that it writes again
    ([JSON.stringify] of [JSON.parse]): a number comes back as the double
    nearest to it, and as [null] when it is past the doubles, which
    [JSON.parse] reads as [Infinity]. *)
Fixpoint JSON_reread (j : json) : json :=
  match j with
  | JNum n => if Z.abs (double_of_Z n) <? 2 ^ 1024 then JNum (double_of_Z n) else JNull
  | JArr l => JArr (JSON_reread <$> l)
  | JObj m => JObj (JSON_reread <$> m)
  | _ => j
  end.

(** The numbers of the document are integers that a double holds:
    [JSON.parse] reads them as they are written. *)
Definition exact (j : json) : Prop := JSON_reread j = j.


(** The record is what [JSON.parse] makes of what [JSON.stringify] makes of
    it. *)
Definition rereadable (r : record) : Prop :=
  JSON_parse (JSON_stringify (VObj r)) = VObj r.

(** An integer on which the arithmetic of doubles is exact
    ([Number.isSafeInteger]). *)
Definition safe_integer (n : Z) : Prop := - 2 ^ 53 < n < 2 ^ 53.

(** The file, parsed again, is the array in memory. *)
Definition in_sync (st : state) : Prop :=
  JSON_parse (pokemons_json st) = VArr (VObj <$> pokemons st).

(** What an answer holds under [data] and under [results]. *)
Definition data_of (o : outcome) : list value :=
  match o with
  | res_json _ (VObj m) => match m !! "data" with Some (VArr l) => l | _ => [] end
  | TypeError | res_json _ _ => []
  end.

Definition results_of (o : outcome) : list value :=
  match o with
  | res_json _ (VObj m) => match m !! "results" with Some (VArr l) => l | _ => [] end
  | TypeError | res_json _ _ => []
  end.

(** The [currentPage] of an answer, if it has one. *)
Definition currentPage_of (o : outcome) : option value :=
  match o with
  | res_json _ (VObj m) =>
      match m !! "pagination" with
      | Some (VObj pagination) => pagination !! "currentPage"
      | _ => None
      end
  | TypeError | res_json _ _ => None
  end.

(** The [hasNextPage] flag of an answer, if it has one. *)
Definition hasNextPage_of (o : outcome) : option bool :=
  match o with
  | res_json _ (VObj m) =>
      match m !! "pagination" with
      | Some (VObj pagination) =>
          match pagination !! "hasNextPage" with
          | Some (VBool b) => Some b
          | _ => None
          end
      | _ => None
      end
  | TypeError | res_json _ _ => None
  end.

(** The record has no [id], or an [id] that is not a number, or the id
    [NaN]. *)
Definition unaddressable (p : record) : Prop :=
  p !! "id" = None ∨ p !! "id" = Some (VNum NaN) ∨
  ∃ v, p !! "id" = Some v ∧ ∀ n, v ≠ VNum n.

(** A request whose body, if it has one, holds numbers that are integers a
    double holds, and that does not write anything but such an integer over
    an id. *)
Definition keeps_ids_integer (req : request) : Prop :=
  match req with
  | POST_pokemons body => exact (JObj body)
  | PUT_pokemons_id _ body =>
      exact (JObj body) ∧ (body !! "id" = None ∨ ∃ n, body !! "id" = Some (JNum n))
  | _ => True
  end.

(** The file holds what [JSON.stringify] makes of the array in memory. *)
Definition file_is_written (st : state) : Prop :=
  pokemons_json st = JSON_stringify (VArr (VObj <$> pokemons st)).

(** The request was not served: it was answered with an error status, or
    its handler ended with a [TypeError]. *)
Definition is_failure (o : outcome) : Prop :=
  match o with
  | res_json status _ => 400 ≤ status
  | TypeError => True
  end.

(** The records that the creations of a session returned. *)
Definition created_of (os : list outcome) : list record :=
  omap (λ o, match o with
             | res_json status (VObj p) => if decide (status = 201) then Some p else None
             | _ => None
             end) os.

(** A request that writes nothing over an id. *)
Definition leaves_ids (req : request) : Prop :=
  match req with
  | PUT_pokemons_id _ body => body !! "id" = None
  | _ => True
  end.

(** The ids [ns] are safe integers, and stay so when [k] is added to them:
    there is room for [k] creations. *)
Definition room_for (k : nat) (ns : list Z) : Prop :=
  Z.of_nat k < 2 ^ 53 ∧ ∀ n, n ∈ ns → - 2 ^ 53 < n ∧ n + Z.of_nat k < 2 ^ 53.

(** The text is a run of decimal digits. *)
Fixpoint decimal (s : string) : bool :=
  match s with
  | String c s' => bool_decide (is_Some (digit_of 10 c)) && decimal s'
  | EmptyString => true
  end.

(** * Sample data *)

Definition names (english french japanese chinese : string) : value :=
  VObj {[ "english" := VStr english; "french" := VStr french;
          "japanese" := VStr japanese; "chinese" := VStr chinese ]}.

Definition pokemon (id : Z) (name : value) : record :=
  {[ "id" := VNum (Int id);
     "name" := name;
     "type" := VArr [VStr "Electric"];
     "base" := VObj {[ "HP" := VNum (Int 35); "Attack" := VNum (Int 55) ]} ]}.

Definition pikachu : value := names "Pikachu" "Pikachu" "Pikachu" "Pikachu".
Definition raichu : value := names "Raichu" "Raichu" "Raichu" "Raichu".
Definition eevee : value := names "Eevee" "Evoli" "Eievui" "Yibu".

Definition store3 : list record :=
  [pokemon 1 pikachu; pokemon 2 raichu; pokemon 3 eevee].

Definition store25 : list record :=
  (λ i, pokemon i pikachu) <$> seqZ 1 25.

(** The state right after the service has loaded a file that holds [l]. *)
Definition loaded (l : list record) : state :=
  {| pokemons := l; pokemons_json := JSON_stringify (VArr (VObj <$> l)) |}.

Definition mew : record :=
  {[ "name" := names "Mew" "Mew" "Myuu" "Menghuan";
     "type" := VArr [VStr "Psychic"];
     "base" := VObj {[ "HP" := VNum (Int 100) ]} ]}.

(** Payloads with the three fields present, one of them falsy. *)
Definition empty_name : record := <["name" := VStr ""]> mew.
Definition zero_base : record := <["base" := VNum (Int 0)]> mew.
Definition without_type : record := delete "type" mew.

(** A record whose name holds the english string only. *)
Definition english_only : record :=
  pokemon 1 (VObj {[ "english" := VStr "Pikachu" ]}).

Definition fire_patch : record :=
  {[ "id" := VNum (Int 9); "type" := VArr [VStr "Fire"] ]}.

Definition text_id_patch : record := {[ "id" := VStr "abc" ]}.


(** A payload and a patch that leave a record without an english name. *)
Definition unnamed_payload : record :=
  {[ "name" := VStr "Missingno"; "type" := VArr []; "base" := VObj ∅ ]}.

Definition unnaming_patch : record := {[ "name" := VNull ]}.

(** The file that holds [store3], and the body of a request for [mew]. *)
Definition store3_file : json := JSON_stringify (VArr (VObj <$> store3)).

Definition mew_body : gmap string json := JSON_stringify <$> mew.

(** A patch without an id, as the body of a request. *)
Definition fire_body : gmap string json := {[ "type" := JArr [JStr "Fire"] ]}.

(** A session that creates, updates, deletes and creates again. *)
Definition session : list request :=
  [ POST_pokemons mew_body; PUT_pokemons_id "2" fire_body; GET_pokemons_id "4";
    DELETE_pokemons_id "1"; DELETE_pokemons_id "abc"; POST_pokemons mew_body ].

(** The first record of [store3] after the update of its id to a text. *)
Definition stuck : record := Object_assign (pokemon 1 pikachu) text_id_patch.

Definition first_id_patch : record := {[ "id" := VNum (Int 1) ]}.

(** * Properties *)

(** ** Arithmetic and arrays *)

(** [Math_ceil_div a b] is the least number of blocks of [b] that hold [a]. *)
Lemma Math_ceil_div_spec (a b : Z) :
  0 < b → b * (Math_ceil_div a b - 1) < a ∧ a ≤ b * Math_ceil_div a b.
Proof.
  intros Hb. unfold Math_ceil_div.
  pose proof (Z.div_mod a b ltac:(lia)) as Hdm.
  pose proof (Z.mod_pos_bound a b Hb) as Hm.
  destruct (Z.eqb_spec (a mod b) 0); lia.
Qed.

(** Up to 2^53 in magnitude an integer is the double nearest to it. *)
Lemma double_of_Z_exact (n : Z) : - 2 ^ 53 ≤ n ≤ 2 ^ 53 → double_of_Z n = n.
Proof.
  intros Hn. unfold double_of_Z.
  destruct (Z.ltb_spec (Z.abs n) (2 ^ 53)) as [Hlt|Hge]; [done|].
  assert (n = 2 ^ 53 ∨ n = - 2 ^ 53) as [-> | ->] by lia; by vm_compute.
Qed.

Lemma totalPages_of_nonneg (pokemons : list record) : 0 ≤ totalPages_of pokemons.
Proof.
  unfold totalPages_of, limit.
  destruct (Math_ceil_div_spec (Z.of_nat (length pokemons)) 20 ltac:(lia)). lia.
Qed.

Lemma totalPages_of_nil : totalPages_of [] = 0.
Proof. reflexivity. Qed.

Lemma totalPages_of_pos (pokemons : list record) :
  0 < totalPages_of pokemons ↔ pokemons ≠ [].
Proof.
  unfold totalPages_of, limit.
  destruct (Math_ceil_div_spec (Z.of_nat (length pokemons)) 20 ltac:(lia)).
  destruct pokemons; simpl length in *; split; intros; try done; lia.
Qed.

(** With indexes in order and not negative, [slice] is [take] after [drop]. *)
Lemma Array_slice_nonneg {A} (l : list A) (start end_ : Z) :
  0 ≤ start → start ≤ end_ →
  Array_slice l start end_ = take (Z.to_nat (end_ - start)) (drop (Z.to_nat start) l).
Proof.
  intros H0 Hle. unfold Array_slice.
  destruct (Z.ltb_spec start 0); [lia|]. destruct (Z.ltb_spec end_ 0); [lia|].
  destruct (Z_le_gt_dec start (Z.of_nat (length l))) as [Hs|Hs].
  - rewrite (Z.min_l start) by done.
    destruct (Z_le_gt_dec end_ (Z.of_nat (length l))) as [He|He].
    + by rewrite (Z.min_l end_).
    + rewrite (Z.min_r end_) by lia.
      rewrite !take_ge; [done| |]; rewrite length_drop; lia.
  - rewrite !(drop_ge l) by lia. by rewrite !take_nil.
Qed.

Lemma bool_decide_ext_ltb (a b : Z) : bool_decide (a < b) = (a <? b).
Proof. destruct (Z.ltb_spec a b); [by apply bool_decide_eq_true|apply bool_decide_eq_false; lia]. Qed.



(** ** Listing *)

Lemma page_of_Int (query_page : option string) (p : Z) :
  parseInt (ToString_param query_page) = Int p → p ≠ 0 → page_of query_page = p.
Proof.
  intros Hp Hne. unfold page_of. rewrite Hp. simpl.
  destruct (Z.eqb_spec p 0); [lia|done].
Qed.

Lemma page_of_default (query_page : option string) :
  parseInt (ToString_param query_page) = NaN ∨
  parseInt (ToString_param query_page) = Int 0 →
  page_of query_page = 1.
Proof. intros [Hp|Hp]; unfold page_of; by rewrite Hp. Qed.

Lemma get_api_pokemons_cases (query_page : option string) (pokemons : list record) :
  let page := page_of query_page in
  (totalPages_of pokemons < page ∧ 0 < totalPages_of pokemons ∧
   ∃ body, get_api_pokemons query_page pokemons = res_json 400 body) ∨
  (¬ (totalPages_of pokemons < page ∧ 0 < totalPages_of pokemons) ∧
   get_api_pokemons query_page pokemons =
     page_response page pokemons
       (Array_slice pokemons ((page - 1) * 20) ((page - 1) * 20 + 20))).
Proof.
  intros page. unfold get_api_pokemons. fold page. fold (totalPages_of pokemons).
  destruct (Z.ltb_spec (totalPages_of pokemons) page) as [H1|H1];
    destruct (Z.ltb_spec 0 (totalPages_of pokemons)) as [H2|H2]; simpl;
    first [ left; split_and!; [done..|eauto] | right; split; [lia|done] ].
Qed.



(** C5. A listing is refused with status 400 exactly when the requested page
    is greater than [totalPages] and [totalPages > 0], that is when the store
    is not empty and the page starts at or past its end; every other request
    is answered with status 200, and so is every request on an empty store. *)
Theorem list_invalid_page (query_page : option string) (pokemons : list record) :
  ((∃ body, get_api_pokemons query_page pokemons = res_json 400 body) ↔
   page_of query_page > totalPages_of pokemons ∧ totalPages_of pokemons > 0) ∧
  (page_of query_page > totalPages_of pokemons ∧ totalPages_of pokemons > 0 ↔
   pokemons ≠ [] ∧ Z.of_nat (length pokemons) ≤ (page_of query_page - 1) * 20) ∧
  ((∃ body, get_api_pokemons query_page pokemons = res_json 200 body) ↔
   ¬ (page_of query_page > totalPages_of pokemons ∧ totalPages_of pokemons > 0)) ∧
  (∃ body, get_api_pokemons query_page [] = res_json 200 body).
Proof.
  split_and!.
  - destruct (get_api_pokemons_cases query_page pokemons)
      as [(H1 & H2 & body & ->)|[H ->]]; split.
    + lia.
    + eauto.
    + intros [body Hbody]. discriminate Hbody.
    + lia.
  - pose proof (Math_ceil_div_spec (Z.of_nat (length pokemons)) 20 ltac:(lia)) as [H1 H2].
    change (Math_ceil_div _ 20) with (totalPages_of pokemons) in H1, H2.
    pose proof (totalPages_of_pos pokemons) as Hpos.
    split.
    + intros [Hgt H0]. split; [apply Hpos; lia|nia].
    + intros [Hne Hlen]. apply Hpos in Hne. split; [nia|lia].
  - destruct (get_api_pokemons_cases query_page pokemons)
      as [(H1 & H2 & body & ->)|[H ->]]; split.
    + intros [b Hb]. discriminate Hb.
    + lia.
    + lia.
    + intros _. unfold page_response. eauto.
  - destruct (get_api_pokemons_cases query_page []) as [(H1 & H2 & _)|[H ->]].
    + rewrite totalPages_of_nil in H2. lia.
    + unfold page_response. eauto.
Qed.

(** C6 (amended). A page parameter that is absent, that does not start with a
    number, or that reads as 0, is not refused: the listing is the one of page
    1, the first 20 records with status 200.  A negative page is not refused
    either, but it is kept as the current page, not replaced by 1. *)
Theorem list_page_default (query_page : option string) (pokemons : list record) :
  (parseInt (ToString_param query_page) = NaN ∨
   parseInt (ToString_param query_page) = Int 0 →
   get_api_pokemons query_page pokemons = get_api_pokemons (Some "1") pokemons ∧
   get_api_pokemons query_page pokemons = page_response 1 pokemons (take 20 pokemons)) ∧
  (∀ p : Z,
     parseInt (ToString_param query_page) = Int p → p < 0 →
     get_api_pokemons query_page pokemons =
       page_response p pokemons
         (Array_slice pokemons ((p - 1) * 20) ((p - 1) * 20 + 20))).
Proof.
  assert (∀ q, page_of q = 1 →
            get_api_pokemons q pokemons = page_response 1 pokemons (take 20 pokemons)) as H1.
  { intros q Hq.
    destruct (get_api_pokemons_cases q pokemons) as [(H1 & H2 & _)|[_ ->]];
      rewrite Hq in *.
    - lia.
    - rewrite Array_slice_nonneg by lia. done. }
  split.
  - intros Hq. apply page_of_default in Hq.
    rewrite (H1 query_page Hq), (H1 (Some "1")) by reflexivity. done.
  - intros p Hq Hp.
    assert (page_of query_page = p) as Hpage by (apply page_of_Int; [done|lia]).
    pose proof (totalPages_of_nonneg pokemons).
    destruct (get_api_pokemons_cases query_page pokemons) as [(H1' & H2 & _)|[_ ->]];
      rewrite Hpage in *; [lia|done].
Qed.

Lemma list_page_default_witness :
  parseInt (ToString_param (Some "abc")) = NaN ∧
  get_api_pokemons (Some "abc") store3 = get_api_pokemons (Some "1") store3 ∧
  parseInt (ToString_param None) = NaN ∧
  get_api_pokemons None store3 = page_response 1 store3 (take 20 store3) ∧
  parseInt (ToString_param (Some "0")) = Int 0 ∧
  get_api_pokemons (Some "0") store3 = get_api_pokemons (Some "1") store3 ∧
  parseInt (ToString_param (Some "-2")) = Int (-2) ∧
  -2 < 0 ∧
  get_api_pokemons (Some "-2") store3 =
    page_response (-2) store3 (Array_slice store3 ((-2 - 1) * 20) ((-2 - 1) * 20 + 20)).
Proof.
  pose proof (list_page_default (Some "abc") store3) as [Habc _].
  pose proof (list_page_default None store3) as [Hnone _].
  pose proof (list_page_default (Some "0") store3) as [Hzero _].
  pose proof (list_page_default (Some "-2") store3) as [_ Hneg].
  split; [reflexivity|]. split; [exact (proj1 (Habc (or_introl eq_refl)))|].
  split; [reflexivity|]. split; [exact (proj2 (Hnone (or_introl eq_refl)))|].
  split; [reflexivity|]. split; [exact (proj1 (Hzero (or_intror eq_refl)))|].
  split; [reflexivity|]. split; [lia|].
  apply Hneg; [reflexivity|lia].
Defined.

(** C6, as stated, fails on a negative page: page -1 of a store of three
    records is an empty page numbered -1, not the listing of page 1. *)
Lemma list_negative_page_not_coerced :
  parseInt "-1" = Int (-1) ∧
  get_api_pokemons (Some "-1") store3 = page_response (-1) store3 [] ∧
  get_api_pokemons (Some "1") store3 = page_response 1 store3 store3 ∧
  get_api_pokemons (Some "-1") store3 ≠ get_api_pokemons (Some "1") store3.
Proof.
  split_and!; [reflexivity|by vm_compute..|].
  intros H. apply (f_equal (λ o, match o with
                                 | res_json _ (VObj m) => m !! "data"
                                 | _ => None
                                 end)) in H.
  vm_compute in H. discriminate H.
Qed.

(** ** Creation *)

Section creation.
Context `{!Runtime}.

Lemma Math_max_Int (x : Z) (xs : list Z) :
  ∃ m, Math_max (Int x) (Int <$> xs) = Int m ∧ m ∈ x :: xs ∧ ∀ n, n ∈ x :: xs → n ≤ m.
Proof.
  unfold Math_max. revert x. induction xs as [|y xs IH]; intros x.
  - exists x. split_and!; [done|by left|].
    intros n Hn. apply list_elem_of_singleton in Hn. lia.
  - rewrite fmap_cons. simpl foldl.
    change (number_max (Int x) (Int y)) with (Int (Z.max x y)).
    destruct (IH (Z.max x y)) as (m & -> & Hin & Hmax).
    exists m. split_and!; [done| |].
    + apply elem_of_cons in Hin as [->|Hin].
      * destruct (Z.max_spec x y) as [[_ ->]|[_ ->]]; [right|]; left.
      * by do 2 right.
    + intros n Hn. pose proof (Hmax (Z.max x y) ltac:(left)).
      apply elem_of_cons in Hn as [->|Hn]; [lia|].
      apply elem_of_cons in Hn as [->|Hn]; [lia|].
      apply Hmax. by right.
Qed.

Lemma mapM_ToNumber_id_values (ns : list Z) :
  mapM ToNumber (id_values ns) = Some (Int <$> ns).
Proof.
  induction ns as [|n ns IH]; [done|].
  unfold id_values in *. rewrite fmap_cons. simpl. by rewrite IH.
Qed.

(** On a store whose ids are all integers, the new id is 1 when the store is
    empty and one more than the greatest id otherwise. *)
(** On integer ids the new id is the double nearest to the greatest id plus
    one. *)
Lemma newId_of_rounds (pokemons : list record) (ns : list Z) :
  ids_of pokemons = id_values ns →
  ∃ m, newId_of pokemons = Some (Int (double_of_Z m)) ∧
    match ns with
    | [] => m = 1
    | _ => m - 1 ∈ ns ∧ ∀ n, n ∈ ns → n ≤ m - 1
    end.
Proof.
  intros Hids. unfold newId_of. fold (ids_of pokemons). rewrite Hids.
  destruct ns as [|x xs]; simpl; [by exists 1|].
  fold (id_values xs). rewrite mapM_ToNumber_id_values.
  destruct (Math_max_Int x xs) as (m & -> & Hin & Hmax).
  exists (m + 1). simpl. replace (m + 1 - 1) with m by lia. done.
Qed.

(** On safe integers it is the greatest id plus one. *)
Lemma newId_of_integers (pokemons : list record) (ns : list Z) :
  ids_of pokemons = id_values ns → Forall safe_integer ns →
  ∃ newId, newId_of pokemons = Some (Int newId) ∧
    match ns with
    | [] => newId = 1
    | _ => newId - 1 ∈ ns ∧ ∀ n, n ∈ ns → n ≤ newId - 1
    end.
Proof.
  intros Hids Hsafe.
  destruct (newId_of_rounds pokemons ns Hids) as (m & Hm & Hmax).
  exists m. split; [|done]. rewrite Hm, double_of_Z_exact; [done|].
  destruct ns as [|x xs]; [by subst m|].
  destruct Hmax as [Hin _]. rewrite Forall_forall in Hsafe.
  apply Hsafe in Hin. unfold safe_integer in Hin. lia.
Qed.

Lemma post_api_pokemons_invalid (body : record) (st : state) :
  ToBoolean (body !! "name") = false ∨ ToBoolean (body !! "type") = false ∨
  ToBoolean (body !! "base") = false →
  post_api_pokemons body st =
    (st, res_json 400 (VObj {[ "message" := VStr "Données invalides" ]})).
Proof.
  intros Hf. unfold post_api_pokemons.
  destruct Hf as [-> | [-> | ->]]; simpl; by rewrite ?orb_true_r.
Qed.

Lemma post_api_pokemons_valid (body : record) (st : state) :
  ToBoolean (body !! "name") = true → ToBoolean (body !! "type") = true →
  ToBoolean (body !! "base") = true →
  post_api_pokemons body st =
    match newId_of (pokemons st) with
    | None => (st, TypeError)
    | Some newId =>
        (writeFileSync (set_pokemons st (pokemons st ++ [<["id" := VNum newId]> body])),
         res_json 201 (VObj (<["id" := VNum newId]> body)))
    end.
Proof. intros Hn Ht Hb. unfold post_api_pokemons. by rewrite Hn, Ht, Hb. Qed.

Lemma post_api_pokemons_created (body : record) (st : state) (created : value) :
  (post_api_pokemons body st).2 = res_json 201 created →
  ∃ newId,
    created = VObj (<["id" := VNum newId]> body) ∧
    post_api_pokemons body st =
      (writeFileSync (set_pokemons st (pokemons st ++ [<["id" := VNum newId]> body])),
       res_json 201 created).
Proof.
  unfold post_api_pokemons.
  destruct (_ || _); [intros Hc; discriminate Hc|].
  destruct (newId_of (pokemons st)) as [newId|]; [|intros Hc; discriminate Hc].
  simpl. intros [= <-]. by exists newId.
Qed.

(** The values that [ToBoolean] sends to [false]. *)
Lemma ToBoolean_false (v : option value) :
  ToBoolean v = false ↔
  v = None ∨ v = Some VNull ∨ v = Some (VBool false) ∨ v = Some (VNum (Int 0)) ∨
  v = Some (VNum NaN) ∨ v = Some (VStr "").
Proof.
  split.
  - destruct v as [[|[]|[|n]|s| |]|]; simpl; intros Hv; try discriminate Hv; eauto 10.
    + destruct (Z.eqb_spec n 0); [subst; eauto 10|done].
    + destruct s; [eauto 10|done].
  - intros Hv. destruct_or!; by subst.
Qed.

(** A payload whose three fields hold mappings or sequences passes the
    validation. *)
Lemma ToBoolean_object (v : value) :
  (∃ m, v = VObj m) ∨ (∃ l, v = VArr l) → ToBoolean (Some v) = true.
Proof. intros [[m ->]|[l ->]]; done. Qed.

Lemma post_api_pokemons_integers (body : record) (st : state) (ns : list Z) :
  ToBoolean (body !! "name") = true →
  ToBoolean (body !! "type") = true →
  ToBoolean (body !! "base") = true →
  ids_of (pokemons st) = id_values ns →
  ∃ newId : Z,
    post_api_pokemons body st =
      (writeFileSync (set_pokemons st (pokemons st ++ [<["id" := VNum (Int newId)]> body])),
       res_json 201 (VObj (<["id" := VNum (Int newId)]> body))).
Proof.
  intros Hn Ht Hb Hids.
  destruct (newId_of_rounds (pokemons st) ns Hids) as (m & Hm & _).
  exists (double_of_Z m). by rewrite post_api_pokemons_valid, Hm.
Qed.

Lemma post_api_pokemons_safe (body : record) (st : state) (ns : list Z) :
  ToBoolean (body !! "name") = true →
  ToBoolean (body !! "type") = true →
  ToBoolean (body !! "base") = true →
  ids_of (pokemons st) = id_values ns → Forall safe_integer ns →
  ∃ newId : Z,
    post_api_pokemons body st =
      (writeFileSync (set_pokemons st (pokemons st ++ [<["id" := VNum (Int newId)]> body])),
       res_json 201 (VObj (<["id" := VNum (Int newId)]> body))) ∧
    match ns with
    | [] => newId = 1
    | _ => newId - 1 ∈ ns ∧ ∀ n, n ∈ ns → n ≤ newId - 1
    end.
Proof.
  intros Hn Ht Hb Hids Hsafe.
  destruct (newId_of_integers (pokemons st) ns Hids Hsafe) as (newId & HnewId & Hmax).
  exists newId. by rewrite post_api_pokemons_valid, HnewId.
Qed.

(** C2 (amended). For every payload whose [name], [type] and [base] are
    present with truthy values, on a store whose ids are all safe integers
    (integers between -2^53 and 2^53, on which the addition of doubles is
    exact), the creation succeeds with status 201: the new record is the
    payload with [id] set to 1 when the store is empty and to the greatest
    id plus one otherwise, it is appended to the end of the store, and it is
    the body of the answer.  In particular the new id is 26 when the
    greatest id of the store is 25. *)
Theorem create_assigns_next_id (body : record) (st : state) (ns : list Z) :
  ToBoolean (body !! "name") = true →
  ToBoolean (body !! "type") = true →
  ToBoolean (body !! "base") = true →
  ids_of (pokemons st) = id_values ns → Forall safe_integer ns →
  ∃ newId : Z,
    let created : record := <["id" := VNum (Int newId)]> body in
    post_api_pokemons body st =
      (writeFileSync (set_pokemons st (pokemons st ++ [created])),
       res_json 201 (VObj created)) ∧
    pokemons (post_api_pokemons body st).1 = pokemons st ++ [created] ∧
    created !! "id" = Some (VNum (Int newId)) ∧
    (∀ k, k ≠ "id" → created !! k = body !! k) ∧
    (ns = [] → newId = 1) ∧
    (ns ≠ [] → newId - 1 ∈ ns ∧ ∀ n, n ∈ ns → n ≤ newId - 1) ∧
    (25 ∈ ns → (∀ n, n ∈ ns → n ≤ 25) → newId = 26).
Proof.
  intros Hn Ht Hb Hids Hsafe.
  destruct (post_api_pokemons_safe body st ns Hn Ht Hb Hids Hsafe)
    as (newId & Hpost & Hmax).
  exists newId. intros created.
  split_and!.
  - done.
  - by rewrite Hpost.
  - apply lookup_insert_eq.
  - intros k Hk. by apply lookup_insert_ne.
  - intros ->. done.
  - intros Hne. destruct ns; done.
  - intros H25 Hle. destruct ns as [|x xs]; [by apply elem_of_nil in H25|].
    destruct Hmax as [Hin Hmax]. pose proof (Hmax 25 H25). pose proof (Hle _ Hin). lia.
Qed.

(** C3 (amended). The creation is refused with status 400 exactly when one of
    [name], [type], [base] is absent from the payload or holds a falsy value
    ([null], [false], 0, [NaN] or the empty string); the store and the file
    are then as they were. *)
Theorem create_invalid_input (body : record) (st : state) :
  ((∃ b, (post_api_pokemons body st).2 = res_json 400 b) ↔
   ToBoolean (body !! "name") = false ∨ ToBoolean (body !! "type") = false ∨
   ToBoolean (body !! "base") = false) ∧
  (ToBoolean (body !! "name") = false ∨ ToBoolean (body !! "type") = false ∨
   ToBoolean (body !! "base") = false →
   post_api_pokemons body st =
     (st, res_json 400 (VObj {[ "message" := VStr "Données invalides" ]}))) ∧
  (∀ k, ToBoolean (body !! k) = false ↔
     body !! k = None ∨ body !! k = Some VNull ∨ body !! k = Some (VBool false) ∨
     body !! k = Some (VNum (Int 0)) ∨ body !! k = Some (VNum NaN) ∨
     body !! k = Some (VStr "")) ∧
  (body !! "name" = None ∨ body !! "type" = None ∨ body !! "base" = None →
   post_api_pokemons body st =
     (st, res_json 400 (VObj {[ "message" := VStr "Données invalides" ]}))).
Proof.
  split_and!.
  - split; [|intros Hf; rewrite post_api_pokemons_invalid by done; eauto].
    intros [b Hb].
    destruct (ToBoolean (body !! "name")) eqn:Hn; [|by left].
    destruct (ToBoolean (body !! "type")) eqn:Ht; [|by right; left].
    destruct (ToBoolean (body !! "base")) eqn:Hbase; [|by right; right].
    rewrite post_api_pokemons_valid in Hb by done.
    destruct (newId_of (pokemons st)); discriminate Hb.
  - apply post_api_pokemons_invalid.
  - intros k. apply ToBoolean_false.
  - intros Habs. apply post_api_pokemons_invalid.
    destruct Habs as [-> | [-> | ->]]; auto.
Qed.

End creation.

Lemma safe_integer_seqZ_25 : Forall safe_integer (seqZ 1 25).
Proof. apply Forall_forall. intros n Hn%elem_of_seqZ. unfold safe_integer. lia. Qed.

Lemma safe_integer_123 : Forall safe_integer [1; 2; 3].
Proof. repeat constructor; unfold safe_integer; lia. Qed.

Lemma create_assigns_next_id_witness :
  ToBoolean (mew !! "name") = true ∧ ToBoolean (mew !! "type") = true ∧
  ToBoolean (mew !! "base") = true ∧
  ids_of (pokemons (loaded store25)) = id_values (seqZ 1 25) ∧
  Forall safe_integer (seqZ 1 25) ∧
  @post_api_pokemons ascii_runtime mew (loaded store25) =
    (writeFileSync (set_pokemons (loaded store25)
                      (store25 ++ [<["id" := VNum (Int 26)]> mew])),
     res_json 201 (VObj (<["id" := VNum (Int 26)]> mew))).
Proof.
  split; [reflexivity|]. split; [reflexivity|]. split; [reflexivity|].
  split; [reflexivity|]. split; [exact safe_integer_seqZ_25|].
  destruct (@create_assigns_next_id ascii_runtime mew (loaded store25) (seqZ 1 25)
              eq_refl eq_refl eq_refl eq_refl safe_integer_seqZ_25)
    as (newId & Hpost & _ & _ & _ & _ & _ & H25).
  rewrite Hpost, H25; [done|by apply elem_of_seqZ|].
  intros n Hn%elem_of_seqZ. lia.
Defined.


(** C2, as stated, fails on a payload that holds the three fields with an
    empty [name]: the creation is refused.  It also fails on a store one of
    whose ids does not read as a number: the id assigned is [NaN]. *)
Lemma create_refuses_empty_name :
  empty_name !! "name" = Some (VStr "") ∧
  is_Some (empty_name !! "type") ∧ is_Some (empty_name !! "base") ∧
  @post_api_pokemons ascii_runtime empty_name (loaded store3) =
    (loaded store3, res_json 400 (VObj {[ "message" := VStr "Données invalides" ]})) ∧
  (@post_api_pokemons ascii_runtime mew
     (loaded [<["id" := VStr "abc"]> (pokemon 1 pikachu); pokemon 2 raichu])).2 =
    res_json 201 (VObj (<["id" := VNum NaN]> mew)).
Proof.
  split_and!; [reflexivity|by eexists..|by vm_compute|by vm_compute].
Qed.

Lemma create_invalid_input_witness :
  without_type !! "type" = None ∧
  @post_api_pokemons ascii_runtime without_type (loaded store3) =
    (loaded store3, res_json 400 (VObj {[ "message" := VStr "Données invalides" ]})).
Proof.
  split; [reflexivity|].
  apply (@create_invalid_input ascii_runtime without_type (loaded store3)).
  right. left. reflexivity.
Defined.

(** C3, as stated, fails on a payload that holds the three fields, [base]
    being 0: none is absent and the creation is refused. *)
Lemma create_refuses_zero_base :
  is_Some (zero_base !! "name") ∧ is_Some (zero_base !! "type") ∧
  zero_base !! "base" = Some (VNum (Int 0)) ∧
  @post_api_pokemons ascii_runtime zero_base (loaded store3) =
    (loaded store3, res_json 400 (VObj {[ "message" := VStr "Données invalides" ]})).
Proof.
  split_and!; [by eexists..|reflexivity|by vm_compute].
Qed.

(** ** Lookup by id, update and deletion *)

Lemma has_id_spec (id : string) (p : record) :
  has_id id p ↔ ∃ n, parseInt id = Int n ∧ p !! "id" = Some (VNum (Int n)).
Proof.
  unfold has_id, strict_equals_number. split.
  - destruct (p !! "id") as [[| |[|a]| | |]|]; try done.
    destruct (parseInt id) as [|b]; [done|].
    intros Hab. apply Is_true_true, Z.eqb_eq in Hab as ->. eauto.
  - intros (n & -> & ->). apply Is_true_true, Z.eqb_refl.
Qed.

Lemma list_find_has_id_Some (id : string) (n : Z) (pokemons : list record) i p :
  parseInt id = Int n →
  first_with_id n pokemons i p → list_find (has_id id) pokemons = Some (i, p).
Proof.
  intros Hid (Hi & Hp & Hfirst). apply list_find_Some. split_and!; [done| |].
  - apply has_id_spec. eauto.
  - intros j q Hj Hlt (m & Hm & Hq)%has_id_spec.
    rewrite Hid in Hm. injection Hm as <-. by eapply Hfirst.
Qed.

Lemma list_find_has_id_None (id : string) (pokemons : list record) :
  (∀ n, parseInt id = Int n → no_record_with_id n pokemons) →
  list_find (has_id id) pokemons = None.
Proof.
  intros Hno. apply list_find_None, Forall_forall.
  intros p Hp (n & Hn & Hid)%has_id_spec. by eapply Hno.
Qed.

Lemma list_find_has_id_cases (id : string) (pokemons : list record) :
  (list_find (has_id id) pokemons = None ∧
   ∀ n, parseInt id = Int n → no_record_with_id n pokemons) ∨
  (∃ n i p, parseInt id = Int n ∧ first_with_id n pokemons i p ∧
            list_find (has_id id) pokemons = Some (i, p)).
Proof.
  destruct (list_find (has_id id) pokemons) as [[i p]|] eqn:Hfind.
  - right. apply list_find_Some in Hfind as (Hi & (n & Hn & Hp)%has_id_spec & Hfirst).
    exists n, i, p. split_and!; [done| |done]. split_and!; [done..|].
    intros j q Hj Hlt Hq. apply (Hfirst j q Hj Hlt), has_id_spec. eauto.
  - left. split; [done|]. intros n Hn p Hp Hid.
    apply list_find_None in Hfind. rewrite Forall_forall in Hfind.
    apply (Hfind p Hp), has_id_spec. eauto.
Qed.

Lemma put_api_pokemons_id_found (id : string) (patch : record) (st : state)
    (n : Z) (i : nat) (pokemon : record) :
  parseInt id = Int n → first_with_id n (pokemons st) i pokemon →
  put_api_pokemons_id id patch st =
    (writeFileSync (set_pokemons st
       (<[i := Object_assign pokemon patch]> (pokemons st))),
     res_json 200 (VObj (Object_assign pokemon patch))).
Proof.
  intros Hid Hfirst. unfold put_api_pokemons_id.
  by rewrite (list_find_has_id_Some id n _ i pokemon Hid Hfirst).
Qed.

(** Every key but [__proto__] is merged as by a union of maps. *)
Lemma lookup_Object_assign_ne (target source : record) (k : string) :
  k ≠ "__proto__" → Object_assign target source !! k = (source ∪ target) !! k.
Proof.
  intros Hk. unfold Object_assign. case_decide; [done|].
  by rewrite !lookup_union, lookup_delete_ne.
Qed.


Lemma Object_assign_id (target source : record) :
  Object_assign target source !! "id" = (source ∪ target) !! "id".
Proof. by apply lookup_Object_assign_ne. Qed.

Lemma delete_api_pokemons_id_found (id : string) (st : state)
    (n : Z) (i : nat) (deletedPokemon : record) :
  parseInt id = Int n → first_with_id n (pokemons st) i deletedPokemon →
  delete_api_pokemons_id id st =
    (writeFileSync (set_pokemons st (delete i (pokemons st))),
     res_json 200 (VObj {[
       "message" := VStr "Pokémon supprimé";
       "pokemon" := VObj deletedPokemon ]})).
Proof.
  intros Hid Hfirst. unfold delete_api_pokemons_id.
  by rewrite (list_find_has_id_Some id n _ i deletedPokemon Hid Hfirst).
Qed.

Lemma first_with_id_store3 : first_with_id 2 store3 1 (pokemon 2 raichu).
Proof.
  split_and!; [reflexivity..|].
  intros [|j] q Hj Hlt; [|lia]. injection Hj as <-. by vm_compute.
Qed.




(** C8 (amended). When no record has the requested id the deletion answers
    404 and nothing changes.  When one does, the first record with that id
    is removed, the records before and after it stay in their order, and the
    answer, with status 200, is a mapping that holds a message and, under the
    key [pokemon], the removed record. *)
Theorem delete_removes_first (id : string) (st : state) :
  (∀ (n : Z) (i : nat) (deletedPokemon : record),
     parseInt id = Int n → first_with_id n (pokemons st) i deletedPokemon →
     let st' := (delete_api_pokemons_id id st).1 in
     delete_api_pokemons_id id st =
       (writeFileSync (set_pokemons st (delete i (pokemons st))),
        res_json 200 (VObj {[
          "message" := VStr "Pokémon supprimé";
          "pokemon" := VObj deletedPokemon ]})) ∧
     pokemons st' = take i (pokemons st) ++ drop (S i) (pokemons st) ∧
     pokemons st = take i (pokemons st) ++ deletedPokemon :: drop (S i) (pokemons st) ∧
     (∀ j, (j < i)%nat → pokemons st' !! j = pokemons st !! j) ∧
     (∀ j, (i ≤ j)%nat → pokemons st' !! j = pokemons st !! S j) ∧
     S (length (pokemons st')) = length (pokemons st)) ∧
  ((∀ n, parseInt id = Int n → no_record_with_id n (pokemons st)) ↔
   delete_api_pokemons_id id st = (st, not_found)).
Proof.
  split.
  - intros n i deletedPokemon Hid Hfirst st'.
    assert (delete_api_pokemons_id id st =
              (writeFileSync (set_pokemons st (delete i (pokemons st))),
               res_json 200 (VObj {[
                 "message" := VStr "Pokémon supprimé";
                 "pokemon" := VObj deletedPokemon ]}))) as Hdel.
    { by apply (delete_api_pokemons_id_found _ _ n). }
    destruct Hfirst as (Hi & _).
    subst st'. rewrite Hdel. simpl. split_and!.
    + done.
    + apply delete_take_drop.
    + symmetry. by apply take_drop_middle.
    + intros j Hj. by apply list_lookup_delete_lt.
    + intros j Hj. by apply list_lookup_delete_ge.
    + rewrite length_delete by eauto. apply lookup_lt_Some in Hi. lia.
  - split.
    + intros Hno. unfold delete_api_pokemons_id.
      by rewrite (list_find_has_id_None id _ Hno).
    + intros Hdel n Hn.
      destruct (list_find_has_id_cases id (pokemons st))
        as [[_ Hno]|(m & i & p & Hm & Hfirst & Hfind)]; [by apply Hno|].
      unfold delete_api_pokemons_id in Hdel. rewrite Hfind in Hdel.
      discriminate Hdel.
Qed.

Lemma delete_removes_first_witness :
  parseInt "2" = Int 2 ∧ first_with_id 2 store3 1 (pokemon 2 raichu) ∧
  delete_api_pokemons_id "2" (loaded store3) =
    (writeFileSync (set_pokemons (loaded store3) [pokemon 1 pikachu; pokemon 3 eevee]),
     res_json 200 (VObj {[
       "message" := VStr "Pokémon supprimé";
       "pokemon" := VObj (pokemon 2 raichu) ]})).
Proof.
  destruct (delete_removes_first "2" (loaded store3)) as [Hfound _].
  destruct (Hfound 2 1%nat (pokemon 2 raichu) eq_refl first_with_id_store3)
    as (Hdel & _).
  split; [reflexivity|]. split; [exact first_with_id_store3|]. exact Hdel.
Defined.

(** C8, as stated, fails on any deletion that succeeds: the body of the
    answer is not the removed record, it holds it under the key [pokemon]. *)
Lemma delete_answers_envelope :
  (delete_api_pokemons_id "2" (loaded store3)).2 =
    res_json 200 (VObj {[
      "message" := VStr "Pokémon supprimé";
      "pokemon" := VObj (pokemon 2 raichu) ]}) ∧
  (delete_api_pokemons_id "2" (loaded store3)).2 ≠ res_json 200 (VObj (pokemon 2 raichu)).
Proof.
  assert ((delete_api_pokemons_id "2" (loaded store3)).2 =
            res_json 200 (VObj {[
              "message" := VStr "Pokémon supprimé";
              "pokemon" := VObj (pokemon 2 raichu) ]})) as Hdel by by vm_compute.
  split; [done|]. rewrite Hdel. intros Hbody.
  apply (f_equal (λ o, match o with
                       | res_json _ (VObj m) => m !! "id"
                       | _ => None
                       end)) in Hbody.
  by vm_compute in Hbody.
Qed.

(** ** Search *)

Lemma Array_filter_total {A} (f : A → option bool) (P : A → Prop)
    `{∀ x, Decision (P x)} (l : list A) :
  (∀ x, x ∈ l → f x = Some (bool_decide (P x))) →
  Array_filter f l = Some (filter P l).
Proof.
  induction l as [|x l IH]; intros Hf; [done|].
  simpl. rewrite (Hf x) by left. rewrite IH by (intros y Hy; apply Hf; by right).
  rewrite filter_cons. by case_bool_decide; case_decide.
Qed.

Lemma Array_filter_None {A} (f : A → option bool) (l : list A) :
  Array_filter f l = None ↔ ∃ x, x ∈ l ∧ f x = None.
Proof.
  induction l as [|x l IH]; simpl.
  - split; [done|]. intros (x & Hx & _). by apply elem_of_nil in Hx.
  - destruct (f x) as [b|] eqn:Hfx.
    + destruct (Array_filter f l) as [r|].
      * split; [done|]. intros (y & Hy & Hfy).
        apply elem_of_cons in Hy as [->|Hy]; [congruence|].
        cut (@Some (list A) r = None); [done|]. apply IH. eauto.
      * split; [|done]. intros _. destruct (proj1 IH eq_refl) as (y & Hy & Hfy).
        exists y. split; [by right|done].
    + split; [|done]. intros _. exists x. split; [by left|done].
Qed.

Section search.
Context `{!Runtime}.

Lemma name_includes_Some (p : record) (lang sub s : string) :
  name_value p lang = Some s →
  name_includes p lang sub = Some (String_includes (toLowerCase s) sub).
Proof.
  unfold name_includes, name_value, get_property, toLowerCase_includes.
  destruct (p !! "name") as [[| | | | |m]|]; try done.
  destruct (m !! lang) as [[| | |s'| |]|]; try done. by intros [= ->].
Qed.

Lemma name_includes_None (p : record) (lang sub : string) :
  name_value p lang = None → name_includes p lang sub = None.
Proof.
  unfold name_includes, name_value, get_property, toLowerCase_includes.
  destruct (p !! "name") as [[| | | | |m]|]; try done.
  destruct (m !! lang) as [[| | |s'| |]|]; done.
Qed.

Lemma name_contains_Some (q : string) (p : record) (lang s : string) :
  name_value p lang = Some s →
  name_contains q p lang ↔ String_includes (toLowerCase s) (toLowerCase q) = true.
Proof. intros Hv. unfold name_contains. by rewrite Hv, String_includes_spec. Qed.

Lemma name_includes_cases (p : record) (lang q : string) :
  (name_value p lang = None ∧ name_includes p lang (toLowerCase q) = None) ∨
  (is_Some (name_value p lang) ∧ name_contains q p lang ∧
   name_includes p lang (toLowerCase q) = Some true) ∨
  (is_Some (name_value p lang) ∧ ¬ name_contains q p lang ∧
   name_includes p lang (toLowerCase q) = Some false).
Proof.
  destruct (name_value p lang) as [s|] eqn:Hv.
  - right. rewrite (name_includes_Some _ _ _ s), (name_contains_Some _ _ _ s) by done.
    destruct (String_includes _ _); [left|right]; eauto.
  - left. split; [done|]. by apply name_includes_None.
Qed.

Lemma matches_iff (q : string) (p : record) :
  matches q p ↔
  name_contains q p "english" ∨ name_contains q p "french" ∨
  name_contains q p "japanese" ∨ name_contains q p "chinese".
Proof.
  unfold matches, language_fields. rewrite !Exists_cons, Exists_nil. tauto.
Qed.

Lemma well_named_iff (p : record) :
  well_named p ↔
  is_Some (name_value p "english") ∧ is_Some (name_value p "french") ∧
  is_Some (name_value p "japanese") ∧ is_Some (name_value p "chinese").
Proof.
  unfold well_named, language_fields. rewrite !Forall_cons, Forall_nil. tauto.
Qed.

Ltac name_cases p q :=
  destruct (name_includes_cases p "english" q) as [[He ->]|[(He & Hce & ->)|(He & Hce & ->)]];
  destruct (name_includes_cases p "french" q) as [[Hf ->]|[(Hf & Hcf & ->)|(Hf & Hcf & ->)]];
  destruct (name_includes_cases p "japanese" q) as [[Hj ->]|[(Hj & Hcj & ->)|(Hj & Hcj & ->)]];
  destruct (name_includes_cases p "chinese" q) as [[Hc ->]|[(Hc & Hcc & ->)|(Hc & Hcc & ->)]];
  simpl.

Lemma name_matches_well_named (q : string) (p : record) :
  well_named p → name_matches (toLowerCase q) p = Some (bool_decide (matches q p)).
Proof.
  intros (He' & Hf' & Hj' & Hc')%well_named_iff.
  unfold name_matches. name_cases p q;
    try (rewrite He in He'; by destruct He');
    try (rewrite Hf in Hf'; by destruct Hf');
    try (rewrite Hj in Hj'; by destruct Hj');
    try (rewrite Hc in Hc'; by destruct Hc');
    f_equal; symmetry;
    first [ apply bool_decide_eq_true; rewrite matches_iff; tauto
          | apply bool_decide_eq_false; rewrite matches_iff; tauto ].
Qed.

Lemma matches_reflect (q : string) (p : record) :
  well_named p → matches q p ↔ name_matches (toLowerCase q) p = Some true.
Proof.
  intros Hwn. rewrite (name_matches_well_named q p Hwn). split.
  - intros Hm. by rewrite bool_decide_eq_true_2.
  - intros [= Hm]. by apply bool_decide_eq_true in Hm.
Qed.

(** A record that is not well named makes the callback throw on every query
    that none of its names contains. *)
Lemma name_matches_throws (q : string) (p : record) :
  ¬ well_named p → ¬ matches q p → name_matches (toLowerCase q) p = None.
Proof.
  intros Hwn Hm.
  pose proof (proj2 (well_named_iff p)) as Hwn'.
  pose proof (proj2 (matches_iff q p)) as Hm'.
  unfold name_matches. name_cases p q; try done; tauto.
Qed.

Lemma name_matches_english (q : string) (p : record) :
  (name_value p "english" = None → name_matches (toLowerCase q) p = None) ∧
  (name_contains q p "english" → name_matches (toLowerCase q) p = Some true).
Proof.
  unfold name_matches.
  destruct (name_includes_cases p "english" q)
    as [[He ->]|[(He & Hce & ->)|(He & Hce & ->)]]; simpl; split; try done;
    intros Hx; try tauto;
    first [ unfold name_contains in Hx; rewrite He in Hx; done
          | rewrite Hx in He; by destruct He ].
Qed.

Lemma get_api_pokemons_search_cases (name : string) (pokemons : list record) :
  get_api_pokemons_search name pokemons =
    match Array_filter (name_matches (toLowerCase name)) pokemons with
    | None => TypeError
    | Some results => search_response name results
    end.
Proof.
  unfold get_api_pokemons_search, search_response.
  destruct (Array_filter _ _) as [[|p results]|]; done.
Qed.

Lemma filter_matches_sublist (name : string) (pokemons : list record) :
  filter (matches name) pokemons `sublist_of` pokemons.
Proof. apply sublist_filter. Qed.

Lemma get_api_pokemons_search_throws (name : string) (pokemons : list record) :
  get_api_pokemons_search name pokemons = TypeError ↔
  ∃ p, p ∈ pokemons ∧ name_matches (toLowerCase name) p = None.
Proof.
  rewrite get_api_pokemons_search_cases, <-Array_filter_None.
  destruct (Array_filter _ _) as [results|]; [|done].
  unfold search_response. case_decide; done.
Qed.

Lemma name_value_insert_id (body : record) (v : value) (lang : string) :
  name_value (<["id" := v]> body) lang = name_value body lang.
Proof. unfold name_value. by rewrite lookup_insert_ne. Qed.

(** C4 (amended). On a store in which the name of every record holds a string
    for each of [english], [french], [japanese] and [chinese], the search
    returns exactly the records one of whose four names contains the query,
    both taken in lower case, in the order of the store; when there is none
    the answer is 404, with a message and an empty [results] array. *)
Theorem search_returns_matches (name : string) (pokemons : list record) :
  Forall well_named pokemons →
  let results := filter (matches name) pokemons in
  (results = [] →
   get_api_pokemons_search name pokemons =
     res_json 404 (VObj {[
       "message" := VStr ("Aucun Pokémon trouvé avec le nom: " +:+ name);
       "results" := VArr [] ]})) ∧
  (results ≠ [] →
   get_api_pokemons_search name pokemons =
     res_json 200 (VObj {[
       "message" := VStr (pretty (length results) +:+ " Pokémon(s) trouvé(s)");
       "results" := VArr (VObj <$> results) ]})) ∧
  results `sublist_of` pokemons ∧
  (∀ p, p ∈ results ↔ p ∈ pokemons ∧ matches name p) ∧
  (∀ p, matches name p ↔
     ∃ lang s, lang ∈ language_fields ∧ name_value p lang = Some s ∧
               substring (toLowerCase name) (toLowerCase s)).
Proof.
  intros Hwn results.
  assert (get_api_pokemons_search name pokemons = search_response name results) as Hs.
  { rewrite get_api_pokemons_search_cases.
    rewrite (Array_filter_total _ (matches name)); [done|].
    intros p Hp. apply name_matches_well_named.
    rewrite Forall_forall in Hwn. by apply Hwn. }
  split_and!.
  - intros Hr. rewrite Hs. unfold search_response. by rewrite decide_True.
  - intros Hr. rewrite Hs. unfold search_response. by rewrite decide_False.
  - apply filter_matches_sublist.
  - intros p. unfold results. rewrite list_elem_of_filter. tauto.
  - intros p. unfold matches. rewrite Exists_exists. unfold name_contains.
    split.
    + intros (lang & Hlang & Hc).
      destruct (name_value p lang) as [s|] eqn:Hv; [|done]. by exists lang, s.
    + intros (lang & s & Hlang & Hv & Hsub). exists lang. by rewrite Hv.
Qed.

(** C10 (amended). The search cannot throw on a store in which the name of
    every record holds a string for each of the four languages.  It throws
    exactly when the callback throws on some record; a record that lacks
    one of the four strings makes it throw for every query that none of the
    record's names contains, and for every query at all when the english
    name is the missing one, whereas a query that the english name contains
    is answered.  Such a store is reachable: a creation succeeds on a payload
    whose [name] is truthy whatever it holds, and an update overwrites [name]
    with what the patch holds; after either, every search throws. *)
Theorem search_throws_on_unnamed :
  (∀ name pokemons,
     Forall well_named pokemons → get_api_pokemons_search name pokemons ≠ TypeError) ∧
  (∀ name pokemons,
     get_api_pokemons_search name pokemons = TypeError ↔
     ∃ p, p ∈ pokemons ∧ name_matches (toLowerCase name) p = None) ∧
  (∀ pokemons p name,
     p ∈ pokemons → ¬ well_named p → ¬ matches name p →
     get_api_pokemons_search name pokemons = TypeError) ∧
  (∀ pokemons p name,
     p ∈ pokemons → name_value p "english" = None →
     get_api_pokemons_search name pokemons = TypeError) ∧
  (∀ p name,
     name_contains name p "english" →
     get_api_pokemons_search name [p] =
       res_json 200 (VObj {[
         "message" := VStr "1 Pokémon(s) trouvé(s)";
         "results" := VArr [VObj p] ]})) ∧
  (∀ body st ns,
     ToBoolean (body !! "name") = true → ToBoolean (body !! "type") = true →
     ToBoolean (body !! "base") = true → ids_of (pokemons st) = id_values ns →
     name_value body "english" = None →
     (∃ created, (post_api_pokemons body st).2 = res_json 201 created) ∧
     ∀ name, get_api_pokemons_search name (pokemons (post_api_pokemons body st).1) = TypeError) ∧
  (ToBoolean (unnamed_payload !! "name") = true ∧
   ToBoolean (unnamed_payload !! "type") = true ∧
   ToBoolean (unnamed_payload !! "base") = true ∧
   name_value unnamed_payload "english" = None) ∧
  (∀ id st n i p,
     parseInt id = Int n → first_with_id n (pokemons st) i p →
     (∃ updated, (put_api_pokemons_id id unnaming_patch st).2 = res_json 200 updated) ∧
     ∀ name,
       get_api_pokemons_search name
         (pokemons (put_api_pokemons_id id unnaming_patch st).1) = TypeError).
Proof.
  assert (∀ pokemons p name,
            p ∈ pokemons → name_value p "english" = None →
            get_api_pokemons_search name pokemons = TypeError) as Henglish.
  { intros pokemons p name Hp He. apply get_api_pokemons_search_throws.
    exists p. split; [done|]. by apply name_matches_english. }
  split_and!.
  - intros name pokemons Hwn Hthrow.
    apply get_api_pokemons_search_throws in Hthrow as (p & Hp & Hnone).
    rewrite Forall_forall in Hwn.
    rewrite (name_matches_well_named name p (Hwn p Hp)) in Hnone. done.
  - apply get_api_pokemons_search_throws.
  - intros pokemons p name Hp Hwn Hm. apply get_api_pokemons_search_throws.
    exists p. split; [done|]. by apply name_matches_throws.
  - done.
  - intros p name Hc. rewrite get_api_pokemons_search_cases. simpl.
    by rewrite (proj2 (name_matches_english name p) Hc).
  - intros body st ns Hn Ht Hb Hids He.
    destruct (post_api_pokemons_integers body st ns Hn Ht Hb Hids) as (newId & ->).
    simpl. split; [eauto|].
    intros name. apply (Henglish _ (<["id" := VNum (Int newId)]> body)).
    + apply elem_of_app. right. by left.
    + by rewrite name_value_insert_id.
  - done.
  - done.
  - done.
  - done.
  - intros id st n i p Hid Hfirst.
    rewrite (put_api_pokemons_id_found id _ st n i p Hid Hfirst).
    simpl. split; [eauto|].
    intros name. apply (Henglish _ (Object_assign p unnaming_patch)).
    + apply (list_elem_of_lookup_2 _ i), list_lookup_insert_eq.
      destruct Hfirst as [Hi _]. by eapply lookup_lt_Some.
    + unfold name_value. rewrite lookup_Object_assign_ne by done.
      unfold unnaming_patch.
      by rewrite (lookup_union_Some_l _ _ _ VNull) by apply lookup_singleton_eq.
Qed.

End search.

Lemma well_named_store3 : Forall well_named store3.
Proof.
  unfold store3. rewrite !Forall_cons, Forall_nil.
  split_and!; [..|done]; apply well_named_iff; split_and!; by eexists.
Qed.

Lemma search_returns_matches_witness :
  Forall well_named store3 ∧
  filter (@matches ascii_runtime "CHU") store3 ≠ [] ∧
  @get_api_pokemons_search ascii_runtime "CHU" store3 =
    res_json 200 (VObj {[
      "message" :=
        VStr (pretty (length (filter (@matches ascii_runtime "CHU") store3)) +:+
              " Pokémon(s) trouvé(s)");
      "results" := VArr (VObj <$> filter (@matches ascii_runtime "CHU") store3) ]}) ∧
  @get_api_pokemons_search ascii_runtime "CHU" store3 =
    res_json 200 (VObj {[
      "message" := VStr "2 Pokémon(s) trouvé(s)";
      "results" := VArr [VObj (pokemon 1 pikachu); VObj (pokemon 2 raichu)] ]}).
Proof.
  assert (filter (@matches ascii_runtime "CHU") store3 ≠ []) as Hne.
  { intros Hnil. assert (pokemon 1 pikachu ∈ @nil record) as Hin; [|by apply elem_of_nil in Hin].
    rewrite <-Hnil. apply list_elem_of_filter. split; [|by left].
    apply (@matches_reflect ascii_runtime); [|by vm_compute].
    apply well_named_iff. split_and!; by eexists. }
  destruct (@search_returns_matches ascii_runtime "CHU" store3 well_named_store3)
    as (_ & Hfound & _).
  split; [exact well_named_store3|]. split; [exact Hne|].
  split; [exact (Hfound Hne)|]. by vm_compute.
Defined.

(** C4, as stated, fails on a store with a record that has no french name:
    a query that its english name does not contain is answered by an
    exception, neither by results nor by 404. *)
Lemma search_throws_without_french :
  english_only !! "name" = Some (VObj {[ "english" := VStr "Pikachu" ]}) ∧
  @get_api_pokemons_search ascii_runtime "mew" [english_only] = TypeError.
Proof. split; by vm_compute. Qed.

Lemma search_throws_on_unnamed_witness :
  ids_of (pokemons (loaded store3)) = id_values [1; 2; 3] ∧
  (@post_api_pokemons ascii_runtime unnamed_payload (loaded store3)).2 =
    res_json 201 (VObj (<["id" := VNum (Int 4)]> unnamed_payload)) ∧
  (∀ name,
     @get_api_pokemons_search ascii_runtime name
       (pokemons (@post_api_pokemons ascii_runtime unnamed_payload (loaded store3)).1)
     = TypeError) ∧
  (∀ name,
     @get_api_pokemons_search ascii_runtime name
       (pokemons (put_api_pokemons_id "2" unnaming_patch (loaded store3)).1)
     = TypeError).
Proof.
  destruct (@search_throws_on_unnamed ascii_runtime)
    as (_ & _ & _ & _ & _ & Hcreate & _ & Hupdate).
  split; [reflexivity|]. split; [by vm_compute|]. split.
  - apply (Hcreate unnamed_payload (loaded store3) [1; 2; 3]); reflexivity.
  - apply (Hupdate "2" (loaded store3) 2 1%nat (pokemon 2 raichu));
      [reflexivity|exact first_with_id_store3].
Defined.

(** C10, as stated, fails on the same store: a query that the english name
    contains is answered, although the record lacks three of the names. *)
Lemma search_answers_without_french :
  name_value english_only "french" = None ∧
  name_value english_only "japanese" = None ∧
  name_value english_only "chinese" = None ∧
  @get_api_pokemons_search ascii_runtime "pika" [english_only] =
    res_json 200 (VObj {[
      "message" := VStr "1 Pokémon(s) trouvé(s)";
      "results" := VArr [VObj english_only] ]}).
Proof. split_and!; by vm_compute. Qed.

(** ** Persistence *)

Lemma json_size_elem (l : list json) (j : json) :
  j ∈ l → (json_size j < json_size (JArr l))%nat.
Proof.
  intros Hj. simpl. pose proof (sum_list_with_in j json_size l Hj). lia.
Qed.

Lemma json_size_lookup (m : gmap string json) (k : string) (j : json) :
  m !! k = Some j → (json_size j < json_size (JObj m))%nat.
Proof.
  intros Hk. simpl.
  rewrite (map_fold_delete_L _ _ k j m); [lia| |done].
  intros. lia.
Qed.

(** [JSON_parse] keeps an integer as it is written, so that writing what it
    has read gives the document back; of [JSON.parse] this is true on the
    documents that are [exact]. *)
Lemma JSON_stringify_parse (j : json) : JSON_stringify (JSON_parse j) = j.
Proof.
  remember (json_size j) as n eqn:Hn. revert j Hn.
  induction (lt_wf n) as [n _ IH]. intros j ->.
  destruct j as [| | | |l|m]; simpl; try done.
  - f_equal. rewrite <-list_fmap_compose. rewrite <-(list_fmap_id l) at 2.
    apply list_fmap_ext. intros i j Hi. simpl.
    apply (IH (json_size j)); [|done].
    apply json_size_elem. by eapply list_elem_of_lookup_2.
  - f_equal. rewrite <-map_fmap_compose. rewrite <-(map_fmap_id m) at 2.
    apply map_fmap_ext. intros k j Hk. simpl.
    apply (IH (json_size j)); [|done]. by eapply json_size_lookup.
Qed.

Lemma rereadable_iff (r : record) :
  rereadable r ↔ ∃ d : gmap string json, r = JSON_parse <$> d.
Proof.
  unfold rereadable. split.
  - intros [= Hr]. by exists (JSON_stringify <$> r).
  - intros [d ->]. simpl. f_equal. rewrite <-!map_fmap_compose.
    apply map_fmap_ext. intros k j Hk. simpl. by rewrite JSON_stringify_parse.
Qed.





Lemma reparse_list (l : list value) :
  JSON_parse <$> (JSON_stringify <$> l) = l ↔
  Forall (λ v, JSON_parse (JSON_stringify v) = v) l.
Proof.
  induction l as [|v l IH].
  - split; [by constructor|done].
  - rewrite !fmap_cons, Forall_cons, <-IH. split.
    + by intros [= Hv Hl].
    + intros [Hv Hl]. by rewrite Hv, Hl.
Qed.

Lemma in_sync_writeFileSync (st : state) :
  in_sync (writeFileSync st) ↔
  Forall (λ v, JSON_parse (JSON_stringify v) = v) (VObj <$> pokemons st).
Proof.
  unfold in_sync, writeFileSync. simpl pokemons. simpl pokemons_json.
  change (JSON_parse (JSON_stringify (VArr (VObj <$> pokemons st))))
    with (VArr (JSON_parse <$> (JSON_stringify <$> (VObj <$> pokemons st)))).
  rewrite <-reparse_list. split; [by intros [= ?]|].
  intros Hl. simpl. f_equal. exact Hl.
Qed.

Lemma in_sync_rereadable (st : state) :
  Forall rereadable (pokemons st) → in_sync (writeFileSync st).
Proof. intros Hp. by apply in_sync_writeFileSync, Forall_fmap. Qed.


Lemma Object_assign_fmap {A} (f : A → value) (dt ds : gmap string A) :
  Object_assign (f <$> dt) (f <$> ds) =
    f <$> ((if decide (is_Some (dt !! "__proto__")) then ds
            else delete "__proto__" ds) ∪ dt).
Proof.
  unfold Object_assign. rewrite map_fmap_union.
  destruct (decide (is_Some (dt !! "__proto__"))) as [Hown|Hown].
  - rewrite decide_True; [done|]. rewrite lookup_fmap. by apply fmap_is_Some.
  - rewrite decide_False; [by rewrite fmap_delete|].
    rewrite lookup_fmap. by rewrite fmap_is_Some.
Qed.

Lemma rereadable_Object_assign (target source : record) :
  rereadable target → rereadable source → rereadable (Object_assign target source).
Proof.
  intros [dt ->]%rereadable_iff [ds ->]%rereadable_iff. apply rereadable_iff.
  rewrite Object_assign_fmap. eauto.
Qed.

Lemma rereadable_insert_id (body : record) (n : Z) :
  rereadable body → rereadable (<["id" := VNum (Int n)]> body).
Proof.
  intros [d ->]%rereadable_iff. apply rereadable_iff.
  exists (<["id" := JNum n]> d). by rewrite fmap_insert.
Qed.











(** ** Further properties *)

(** X1. Fetching by id answers 200 with the first record that has the id, and
    404 exactly when no record has it. *)
Theorem get_by_id_first (id : string) (pokemons : list record) :
  (∀ n i p,
     parseInt id = Int n → first_with_id n pokemons i p →
     get_api_pokemons_id id pokemons = res_json 200 (VObj p)) ∧
  ((∀ n, parseInt id = Int n → no_record_with_id n pokemons) ↔
   get_api_pokemons_id id pokemons = not_found).
Proof.
  unfold get_api_pokemons_id. split.
  - intros n i p Hid Hfirst. by rewrite (list_find_has_id_Some id n _ i p Hid Hfirst).
  - split.
    + intros Hno. by rewrite (list_find_has_id_None id _ Hno).
    + intros Hget n Hn.
      destruct (list_find_has_id_cases id pokemons)
        as [[_ Hno]|(m & i & p & Hm & Hfirst & Hfind)]; [by apply Hno|].
      rewrite Hfind in Hget. discriminate Hget.
Qed.

Lemma get_by_id_first_witness :
  parseInt "2" = Int 2 ∧ first_with_id 2 store3 1 (pokemon 2 raichu) ∧
  get_api_pokemons_id "2" store3 = res_json 200 (VObj (pokemon 2 raichu)).
Proof.
  split; [reflexivity|]. split; [exact first_with_id_store3|].
  exact (proj1 (get_by_id_first "2" store3) 2 1%nat (pokemon 2 raichu)
           eq_refl first_with_id_store3).
Defined.

Lemma ids_of_lookup (pokemons : list record) (ns : list Z) (j : nat) (q : record) :
  ids_of pokemons = id_values ns → pokemons !! j = Some q →
  ∃ n, ns !! j = Some n ∧ q !! "id" = Some (VNum (Int n)).
Proof.
  intros Hids Hj. apply (f_equal (λ l, l !! j)) in Hids.
  unfold ids_of, id_values in Hids. rewrite !list_lookup_fmap, Hj in Hids.
  destruct (ns !! j) as [n|]; [|done]. simpl in Hids. exists n.
  split; [done|]. by injection Hids.
Qed.

(** X2. On a store whose ids are safe integers, a record that has just been
    created is what fetching by its id returns. *)
Theorem create_then_get `{Runtime} (body : record) (st : state) (ns : list Z)
    (created : record) (n : Z) (id : string) :
  ids_of (pokemons st) = id_values ns → Forall safe_integer ns →
  (post_api_pokemons body st).2 = res_json 201 (VObj created) →
  created !! "id" = Some (VNum (Int n)) → parseInt id = Int n →
  get_api_pokemons_id id (pokemons (post_api_pokemons body st).1) =
    res_json 200 (VObj created).
Proof.
  intros Hids Hsafe Hpost Hcreated Hid.
  destruct (newId_of_integers (pokemons st) ns Hids Hsafe) as (m & Hm & Hmax).
  unfold post_api_pokemons in *. destruct (_ || _); [discriminate Hpost|].
  rewrite Hm in *. simpl in *. injection Hpost as <-.
  rewrite lookup_insert_eq in Hcreated. injection Hcreated as ->.
  unfold get_api_pokemons_id.
  rewrite (list_find_has_id_Some id n _ (length (pokemons st))
             (<["id" := VNum (Int n)]> body)); [done..|].
  split_and!.
  - by rewrite lookup_app_r, Nat.sub_diag.
  - apply lookup_insert_eq.
  - intros j q Hj Hlt. rewrite lookup_app_l in Hj by done.
    destruct (ids_of_lookup _ _ _ _ Hids Hj) as (k & Hk & ->).
    intros [= ->]. destruct ns as [|x xs]; [done|].
    destruct Hmax as [_ Hmax]. apply list_elem_of_lookup_2, Hmax in Hk. lia.
Qed.

Lemma create_then_get_witness :
  ids_of (pokemons (loaded store3)) = id_values [1; 2; 3] ∧
  Forall safe_integer [1; 2; 3] ∧
  (@post_api_pokemons ascii_runtime mew (loaded store3)).2 =
    res_json 201 (VObj (<["id" := VNum (Int 4)]> mew)) ∧
  parseInt "4" = Int 4 ∧
  get_api_pokemons_id "4"
    (pokemons (@post_api_pokemons ascii_runtime mew (loaded store3)).1) =
    res_json 200 (VObj (<["id" := VNum (Int 4)]> mew)).
Proof.
  assert ((@post_api_pokemons ascii_runtime mew (loaded store3)).2 =
            res_json 201 (VObj (<["id" := VNum (Int 4)]> mew))) as Hpost by by vm_compute.
  split; [reflexivity|]. split; [exact safe_integer_123|].
  split; [exact Hpost|]. split; [reflexivity|].
  exact (@create_then_get ascii_runtime mew (loaded store3) [1; 2; 3]
           (<["id" := VNum (Int 4)]> mew) 4 "4" eq_refl safe_integer_123 Hpost
           eq_refl eq_refl).
Defined.

(** X3. When a single record has the requested id, fetching by that id after
    its deletion answers 404. *)
Theorem delete_then_get (id : string) (st : state) (n : Z) (i : nat) (p : record) :
  parseInt id = Int n → pokemons st !! i = Some p → p !! "id" = Some (VNum (Int n)) →
  (∀ j q, pokemons st !! j = Some q → j ≠ i → q !! "id" ≠ Some (VNum (Int n))) →
  get_api_pokemons_id id (pokemons (delete_api_pokemons_id id st).1) = not_found.
Proof.
  intros Hid Hi Hp Huniq.
  assert (first_with_id n (pokemons st) i p) as Hfirst.
  { split_and!; [done..|]. intros j q Hj Hlt. apply (Huniq j q Hj). lia. }
  rewrite (delete_api_pokemons_id_found id st n i p Hid Hfirst). simpl.
  unfold get_api_pokemons_id. rewrite list_find_has_id_None; [done|].
  intros m Hm. rewrite Hid in Hm. injection Hm as <-.
  intros q Hq. apply list_elem_of_lookup in Hq as [j Hj].
  destruct (decide (j < i)%nat) as [Hlt|Hge].
  - rewrite list_lookup_delete_lt in Hj by done. apply (Huniq j q Hj). lia.
  - rewrite list_lookup_delete_ge in Hj by lia. apply (Huniq (S j) q Hj). lia.
Qed.

Lemma delete_then_get_witness :
  parseInt "2" = Int 2 ∧ store3 !! 1%nat = Some (pokemon 2 raichu) ∧
  get_api_pokemons_id "2" (pokemons (delete_api_pokemons_id "2" (loaded store3)).1) =
    not_found.
Proof.
  split; [reflexivity|]. split; [reflexivity|].
  apply (delete_then_get "2" (loaded store3) 2 1%nat (pokemon 2 raichu));
    [reflexivity..|].
  intros [|[|[|j]]] q Hj Hne; try done; injection Hj as <-; by vm_compute.
Defined.

(** X4. The answer to a request for a page [p] between 1 and [totalPages]
    holds at most 20 records: 20 when the page is not the last one, and what
    remains of the store, at least one record, when it is. *)
Theorem page_length (query_page : option string) (pokemons : list record) (p : Z) :
  parseInt (ToString_param query_page) = Int p →
  1 ≤ p → p ≤ totalPages_of pokemons →
  let data := data_of (get_api_pokemons query_page pokemons) in
  (length data ≤ 20)%nat ∧
  (p < totalPages_of pokemons → length data = 20%nat) ∧
  (p = totalPages_of pokemons →
   Z.of_nat (length data) = Z.of_nat (length pokemons) - (p - 1) * 20 ∧
   (1 ≤ length data)%nat).
Proof.
  intros Hparse H1 Hp data.
  assert (page_of query_page = p) as Hpage by (apply page_of_Int; [done|lia]).
  assert (data = VObj <$> Array_slice pokemons ((p - 1) * 20) ((p - 1) * 20 + 20))
    as ->.
  { unfold data.
    destruct (get_api_pokemons_cases query_page pokemons) as [(Hlt & _)|[_ ->]];
      rewrite Hpage in *; [lia|done]. }
  rewrite length_fmap, Array_slice_nonneg by lia.
  pose proof (Math_ceil_div_spec (Z.of_nat (length pokemons)) 20 ltac:(lia)) as [Hlo Hhi].
  change (Math_ceil_div _ 20) with (totalPages_of pokemons) in Hlo, Hhi.
  rewrite length_take, length_drop. split_and!; [lia|lia|]. intros ->. lia.
Qed.

Lemma page_length_witness :
  parseInt (ToString_param (Some "2")) = Int 2 ∧
  1 ≤ 2 ∧ 2 ≤ totalPages_of store25 ∧
  length (data_of (get_api_pokemons (Some "2") store25)) = 5%nat ∧
  length (data_of (get_api_pokemons (Some "1") store25)) = 20%nat.
Proof.
  assert (2 ≤ totalPages_of store25) as H2 by by vm_compute.
  split; [reflexivity|]. split; [lia|]. split; [exact H2|].
  destruct (page_length (Some "2") store25 2 eq_refl ltac:(lia) H2) as (_ & _ & Hlast).
  destruct (page_length (Some "1") store25 1 eq_refl ltac:(lia) ltac:(lia))
    as (_ & Hfull & _).
  split.
  - destruct (Hlast eq_refl) as [Hlen _]. change (length store25) with 25%nat in Hlen. lia.
  - apply Hfull. lia.
Defined.

(** X5. On a store whose ids are distinct safe integers, a creation that
    succeeds leaves a store whose ids are distinct integers. *)
Theorem create_keeps_ids_unique `{Runtime} (body : record) (st : state) (ns : list Z)
    (created : value) :
  ids_of (pokemons st) = id_values ns → Forall safe_integer ns → NoDup ns →
  (post_api_pokemons body st).2 = res_json 201 created →
  ∃ n, ids_of (pokemons (post_api_pokemons body st).1) = id_values (ns ++ [n]) ∧
       NoDup (ns ++ [n]).
Proof.
  intros Hids Hsafe Hnodup Hpost.
  destruct (newId_of_integers (pokemons st) ns Hids Hsafe) as (m & Hm & Hmax).
  unfold post_api_pokemons in *. destruct (_ || _); [discriminate Hpost|].
  rewrite Hm in *. simpl in *. exists m. split.
  - unfold ids_of, id_values in *. rewrite !fmap_app, Hids. simpl.
    by rewrite lookup_insert_eq.
  - apply NoDup_app. split_and!; [done| |apply NoDup_singleton].
    intros k Hk ->%list_elem_of_singleton. destruct ns as [|x xs]; [by apply elem_of_nil in Hk|].
    destruct Hmax as [_ Hmax]. apply Hmax in Hk. lia.
Qed.

Lemma create_keeps_ids_unique_witness :
  ids_of (pokemons (loaded store3)) = id_values [1; 2; 3] ∧
  Forall safe_integer [1; 2; 3] ∧ NoDup [1; 2; 3] ∧
  ∃ n, ids_of (pokemons (@post_api_pokemons ascii_runtime mew (loaded store3)).1) =
         id_values ([1; 2; 3] ++ [n]) ∧
       NoDup ([1; 2; 3] ++ [n]).
Proof.
  assert (NoDup [1; 2; 3]) as Hnodup.
  { by apply (bool_decide_unpack _). }
  split; [reflexivity|]. split; [exact safe_integer_123|]. split; [exact Hnodup|].
  apply (@create_keeps_ids_unique ascii_runtime mew (loaded store3) [1; 2; 3]
           (VObj (<["id" := VNum (Int 4)]> mew)) eq_refl safe_integer_123 Hnodup).
  by vm_compute.
Defined.

(** ** Reading back a decimal text *)

Lemma digit_of_pretty_N_char (k : N) :
  (k < 10)%N → digit_of 10 (pretty_N_char k) = Some (Z.of_N k).
Proof.
  intros Hk.
  assert (k = 0 ∨ k = 1 ∨ k = 2 ∨ k = 3 ∨ k = 4 ∨ k = 5 ∨ k = 6 ∨ k = 7 ∨
          k = 8 ∨ k = 9)%N as Hcases by lia.
  destruct_or!; subst; reflexivity.
Qed.

Lemma String_app_assoc (s1 s2 s3 : string) :
  (s1 +:+ s2) +:+ s3 = s1 +:+ (s2 +:+ s3).
Proof.
  induction s1 as [|c s1 IH]; [done|].
  change (String c ((s1 +:+ s2) +:+ s3) = String c (s1 +:+ s2 +:+ s3)).
  by rewrite IH.
Qed.

Lemma pretty_N_go_app (x : N) (s : string) :
  pretty_N_go x s = pretty_N_go x "" +:+ s.
Proof.
  revert s. induction (N.lt_wf_0 x) as [x _ IH]; intros s.
  destruct (decide (0 < x)%N) as [Hx|Hx].
  - rewrite !(pretty_N_go_step x) by done.
    rewrite (IH (x `div` 10)%N) by (by apply N.div_lt).
    rewrite (IH (x `div` 10)%N ltac:(by apply N.div_lt) (String _ "")).
    by rewrite String_app_assoc.
  - replace x with 0%N by lia. by rewrite !pretty_N_go_0.
Qed.

Lemma parse_digits_app (t s : string) (acc : option Z) :
  decimal t = true →
  ∃ acc', parse_digits 10 (t +:+ s) acc = parse_digits 10 s acc' ∧
          parse_digits 10 t acc = acc'.
Proof.
  revert acc. induction t as [|c t IH]; intros acc Ht; simpl in *.
  - by exists acc.
  - apply andb_true_iff in Ht as [Hc Ht]. apply bool_decide_eq_true in Hc as [d Hd].
    rewrite Hd. apply IH, Ht.
Qed.

Lemma pretty_N_go_digits (x : N) :
  decimal (pretty_N_go x "") = true ∧
  parse_digits 10 (pretty_N_go x "") None =
    if decide (0 < x)%N then Some (Z.of_N x) else None.
Proof.
  induction (N.lt_wf_0 x) as [x _ IH].
  destruct (decide (0 < x)%N) as [Hx|Hx].
  - rewrite pretty_N_go_step, pretty_N_go_app by done.
    destruct (IH (x `div` 10)%N ltac:(by apply N.div_lt)) as [Hdec Hval].
    pose proof (digit_of_pretty_N_char (x `mod` 10) ltac:(by apply N.mod_lt)) as Hd.
    split.
    + clear Hval. induction (pretty_N_go (x `div` 10) "") as [|c t IHt]; simpl in *.
      * by rewrite Hd.
      * apply andb_true_iff in Hdec as [-> Ht]. by apply IHt.
    + destruct (parse_digits_app (pretty_N_go (x `div` 10) "")
                  (String (pretty_N_char (x `mod` 10)) "") None Hdec) as (acc' & -> & Hacc).
      rewrite Hval in Hacc. subst acc'. simpl. rewrite Hd.
      pose proof (N.div_mod x 10 ltac:(lia)) as Hdm.
      clear IH Hdec Hval Hd.
      set (q := (x `div` 10)%N) in *. set (r := (x `mod` 10)%N) in *.
      clearbody q r. case_decide; f_equal; lia.
  - replace x with 0%N by lia. done.
Qed.

Lemma decimal_head (c : Ascii.ascii) (s : string) :
  decimal (String c s) = true →
  is_whitespace c = false ∧ c ≠ "-"%char ∧ c ≠ "+"%char ∧ c ≠ "x"%char ∧ c ≠ "X"%char.
Proof.
  simpl. intros [Hc _]%andb_true_iff. apply bool_decide_eq_true in Hc as [d Hd].
  destruct c as [[] [] [] [] [] [] [] []]; try discriminate Hd; by vm_compute.
Qed.

Lemma parseInt_decimal (s : string) :
  decimal s = true → s ≠ "" →
  parseInt s = match parse_digits 10 s None with Some m => Int m | None => NaN end ∧
  parseInt (String "-" s) =
    match parse_digits 10 s None with Some m => Int (- m) | None => NaN end.
Proof.
  intros Hs Hne. destruct s as [|c s]; [done|].
  destruct (decimal_head c s Hs) as (Hws & Hminus & Hplus & _).
  assert ((match String c s with
           | String "0" (String "x" r) | String "0" (String "X" r) => (16, r)
           | _ => (10, String c s)
           end) = (10, String c s)) as Hprefix.
  { destruct s as [|c' s]; [by destruct c as [[] [] [] [] [] [] [] []]|].
    simpl in Hs. apply andb_true_iff in Hs as [_ Hs].
    destruct (decimal_head c' s Hs) as (_ & _ & _ & Hx & HX).
    destruct c as [[] [] [] [] [] [] [] []]; try done;
      destruct c' as [[] [] [] [] [] [] [] []]; done. }
  split.
  - unfold parseInt. change (trim_start (String c s)) with
      (if is_whitespace c then trim_start s else String c s). rewrite Hws.
    assert ((match String c s with
             | String "-" r => (-1, r)
             | String "+" r => (1, r)
             | _ => (1, String c s)
             end) = (1, String c s)) as ->.
    { destruct c as [[] [] [] [] [] [] [] []]; done. }
    rewrite Hprefix. destruct (parse_digits 10 (String c s) None) as [m|]; [|done].
    f_equal; lia.
  - unfold parseInt. change (trim_start (String "-" (String c s))) with (String "-" (String c s)).
    cbv iota beta. rewrite Hprefix.
    destruct (parse_digits 10 (String c s) None) as [m|]; [|done].
    f_equal; lia.
Qed.

(** Reading back the decimal text of an integer gives the integer. *)
Lemma parseInt_pretty (n : Z) : parseInt (pretty n) = Int n.
Proof.
  assert (∀ x : positive,
            decimal (pretty x) = true ∧ pretty x ≠ "" ∧
            parse_digits 10 (pretty x) None = Some (Z.pos x)) as Hpos.
  { intros x. unfold pretty, pretty_positive, pretty, pretty_N.
    rewrite decide_False by done.
    destruct (pretty_N_go_digits (N.pos x)) as [Hdec Hval].
    rewrite decide_True in Hval by lia. split_and!; [done| |done].
    intros Hnil. rewrite Hnil in Hval. discriminate Hval. }
  destruct n as [|x|x].
  - reflexivity.
  - destruct (Hpos x) as (Hdec & Hne & Hval).
    change (pretty (Z.pos x)) with (pretty x).
    rewrite (proj1 (parseInt_decimal _ Hdec Hne)), Hval. done.
  - destruct (Hpos x) as (Hdec & Hne & Hval).
    change (pretty (Z.neg x)) with (String "-" (pretty x)).
    rewrite (proj2 (parseInt_decimal _ Hdec Hne)), Hval. done.
Qed.

(** ** Listing, page after page *)

Lemma data_of_page_response (page : Z) (pokemons data : list record) :
  data_of (page_response page pokemons data) = VObj <$> data.
Proof. reflexivity. Qed.

Lemma hasNextPage_of_page_response (page : Z) (pokemons data : list record) :
  hasNextPage_of (page_response page pokemons data) =
    Some (bool_decide (page * 20 < Z.of_nat (length pokemons))).
Proof.
  change (hasNextPage_of (page_response page pokemons data))
    with (Some (page <? totalPages_of pokemons)).
  f_equal. rewrite <-bool_decide_ext_ltb. apply bool_decide_ext.
  pose proof (Math_ceil_div_spec (Z.of_nat (length pokemons)) 20 ltac:(lia)) as [Hlo Hhi].
  change (Math_ceil_div _ 20) with (totalPages_of pokemons) in Hlo, Hhi. lia.
Qed.

(** The page of a text that is the decimal writing of [p]. *)
Lemma get_api_pokemons_pretty (pokemons : list record) (p : Z) :
  1 ≤ p → ¬ (totalPages_of pokemons < p ∧ 0 < totalPages_of pokemons) →
  get_api_pokemons (Some (pretty p)) pokemons =
    page_response p pokemons (take 20 (drop (Z.to_nat ((p - 1) * 20)) pokemons)).
Proof.
  intros Hp Hrange.
  assert (page_of (Some (pretty p)) = p) as Hpage.
  { apply page_of_Int; [apply parseInt_pretty|lia]. }
  destruct (get_api_pokemons_cases (Some (pretty p)) pokemons) as [(H1 & H2 & _)|[_ ->]];
    rewrite Hpage in *; [lia|].
  rewrite Array_slice_nonneg by lia.
  by replace (Z.to_nat ((p - 1) * 20 + 20 - (p - 1) * 20)) with 20%nat by lia.
Qed.

(** Cutting a list in blocks of 20 and joining the blocks gives the list. *)
Lemma blocks_join {A} (l : list A) (k : nat) :
  (length l ≤ 20 * k)%nat →
  mjoin ((λ i : nat, take 20 (drop (20 * i) l)) <$> seq 0 k) = l.
Proof.
  revert l. induction k as [|k IH]; intros l Hl.
  - destruct l; [done|simpl in Hl; lia].
  - rewrite <-cons_seq, <-fmap_S_seq, fmap_cons, <-list_fmap_compose. simpl mjoin.
    etrans; [|apply (take_drop 20 l)]. f_equal.
    etrans; [|apply (IH (drop 20 l)); rewrite length_drop; lia].
    f_equal. apply list_fmap_ext. intros _ i _. simpl.
    rewrite drop_drop. do 2 f_equal. lia.
Qed.

(** X7. The pages 1 to [totalPages], asked for by their numbers and put
    end to end, are the store: no record is left out, none comes twice. *)
Theorem pages_cover_store (pokemons : list record) :
  mjoin ((λ p, data_of (get_api_pokemons (Some (pretty p)) pokemons))
           <$> seqZ 1 (totalPages_of pokemons)) =
    VObj <$> pokemons.
Proof.
  pose proof (Math_ceil_div_spec (Z.of_nat (length pokemons)) 20 ltac:(lia)) as [Hlo Hhi].
  change (Math_ceil_div _ 20) with (totalPages_of pokemons) in Hlo, Hhi.
  pose proof (totalPages_of_nonneg pokemons) as Hnn.
  rewrite <-(blocks_join (VObj <$> pokemons) (Z.to_nat (totalPages_of pokemons)))
    by (rewrite length_fmap; lia).
  unfold seqZ. rewrite <-list_fmap_compose. f_equal.
  apply list_fmap_ext. intros j i [-> Hi]%lookup_seq. simpl.
  rewrite get_api_pokemons_pretty by lia.
  rewrite data_of_page_response, fmap_take, fmap_drop.
  do 2 f_equal. lia.
Qed.

(** X8. For a page [p] of the store, [hasNextPage] tells what asking for page
    [p + 1] gives: when it is true, page [p + 1] is answered with at least
    one record; when it is false, page [p + 1] is refused with 400. *)
Theorem hasNextPage_tells_next_page (pokemons : list record) (p : Z) :
  1 ≤ p → p ≤ totalPages_of pokemons →
  (∃ b, hasNextPage_of (get_api_pokemons (Some (pretty p)) pokemons) = Some b) ∧
  (hasNextPage_of (get_api_pokemons (Some (pretty p)) pokemons) = Some true →
   data_of (get_api_pokemons (Some (pretty (p + 1))) pokemons) ≠ [] ∧
   ∃ body, get_api_pokemons (Some (pretty (p + 1))) pokemons = res_json 200 body) ∧
  (hasNextPage_of (get_api_pokemons (Some (pretty p)) pokemons) = Some false →
   ∃ body, get_api_pokemons (Some (pretty (p + 1))) pokemons = res_json 400 body).
Proof.
  intros H1 Hp.
  pose proof (Math_ceil_div_spec (Z.of_nat (length pokemons)) 20 ltac:(lia)) as [Hlo Hhi].
  change (Math_ceil_div _ 20) with (totalPages_of pokemons) in Hlo, Hhi.
  rewrite (get_api_pokemons_pretty pokemons p) by lia.
  rewrite hasNextPage_of_page_response. split_and!.
  - eauto.
  - intros [= Hnext%bool_decide_eq_true].
    rewrite (get_api_pokemons_pretty pokemons (p + 1)) by lia.
    rewrite data_of_page_response. split; [|unfold page_response; eauto].
    intros Hnil%fmap_nil_inv. apply (f_equal length) in Hnil.
    rewrite length_take, length_drop in Hnil. change (length []) with 0%nat in Hnil. lia.
  - intros [= Hlast%bool_decide_eq_false].
    assert (page_of (Some (pretty (p + 1))) = p + 1) as Hpage.
    { apply page_of_Int; [apply parseInt_pretty|lia]. }
    destruct (get_api_pokemons_cases (Some (pretty (p + 1))) pokemons)
      as [(_ & _ & Hbody)|[Hin _]]; [done|].
    rewrite Hpage in Hin. lia.
Qed.

Lemma hasNextPage_tells_next_page_witness :
  1 ≤ 1 ∧ 1 ≤ totalPages_of store25 ∧ 2 ≤ totalPages_of store25 ∧
  hasNextPage_of (get_api_pokemons (Some (pretty 1)) store25) = Some true ∧
  data_of (get_api_pokemons (Some (pretty (1 + 1))) store25) ≠ [] ∧
  hasNextPage_of (get_api_pokemons (Some (pretty 2)) store25) = Some false ∧
  ∃ body, get_api_pokemons (Some (pretty (2 + 1))) store25 = res_json 400 body.
Proof.
  assert (1 ≤ totalPages_of store25) as H1 by by vm_compute.
  assert (2 ≤ totalPages_of store25) as H2 by by vm_compute.
  assert (hasNextPage_of (get_api_pokemons (Some (pretty 1)) store25) = Some true)
    as Htrue by by vm_compute.
  assert (hasNextPage_of (get_api_pokemons (Some (pretty 2)) store25) = Some false)
    as Hfalse by by vm_compute.
  destruct (hasNextPage_tells_next_page store25 1 ltac:(lia) H1) as (_ & Hnext & _).
  destruct (hasNextPage_tells_next_page store25 2 ltac:(lia) H2) as (_ & _ & Hlast).
  split; [lia|]. split; [exact H1|]. split; [exact H2|]. split; [exact Htrue|].
  split; [exact (proj1 (Hnext Htrue))|]. split; [exact Hfalse|]. exact (Hlast Hfalse).
Defined.

(** [slice] returns a run of consecutive elements, no longer than the
    distance between its two indexes. *)
Lemma Array_slice_window {A} (l : list A) (start end_ : Z) :
  start ≤ end_ →
  ∃ pre post,
    l = pre ++ Array_slice l start end_ ++ post ∧
    Z.of_nat (length (Array_slice l start end_)) ≤ end_ - start.
Proof.
  intros Hle.
  unfold Array_slice.
  destruct (Z.ltb_spec start 0), (Z.ltb_spec end_ 0);
    match goal with
    | |- context [take ?a (drop ?k l)] => exists (take k l), (drop a (drop k l))
    end;
    (split; [by rewrite !take_drop|rewrite length_take, length_drop; lia]).
Qed.

(** X9. Whatever the page asked for, the records of the answer are a run of
    at most 20 consecutive records of the store, in the order of the
    store. *)
Theorem list_returns_window (query_page : option string) (pokemons : list record) :
  ∃ data pre post,
    data_of (get_api_pokemons query_page pokemons) = VObj <$> data ∧
    pokemons = pre ++ data ++ post ∧ (length data ≤ 20)%nat.
Proof.
  destruct (get_api_pokemons_cases query_page pokemons) as [(H1 & H2 & _)|[_ ->]].
  - exists [], [], pokemons. split_and!; [|done|simpl; lia].
    unfold get_api_pokemons.
    change (Math_ceil_div (Z.of_nat (length pokemons)) limit) with (totalPages_of pokemons).
    destruct (Z.ltb_spec (totalPages_of pokemons) (page_of query_page)); [|lia].
    destruct (Z.ltb_spec 0 (totalPages_of pokemons)); [|lia]. reflexivity.
  - destruct (Array_slice_window pokemons ((page_of query_page - 1) * 20)
                ((page_of query_page - 1) * 20 + 20) ltac:(lia)) as (pre & post & Hl & Hlen).
    exists (Array_slice pokemons ((page_of query_page - 1) * 20)
              ((page_of query_page - 1) * 20 + 20)), pre, post.
    split_and!; [apply data_of_page_response|done|lia].
Qed.

(** X10. A negative page [p] is answered, with status 200 and [p] as
    [currentPage], and counted from the end of the store: with at least
    [(1 - p) * 20] records, the answer holds the 20
    records that come just before the last [- p * 20]; with at most
    [- p * 20] records it holds none; in between it holds the first records
    of the store, those before the last [- p * 20]. *)
Theorem negative_page_counts_from_end (query_page : option string)
    (pokemons : list record) (p : Z) :
  parseInt (ToString_param query_page) = Int p → p < 0 →
  (∃ body, get_api_pokemons query_page pokemons = res_json 200 body) ∧
  currentPage_of (get_api_pokemons query_page pokemons) = Some (VNum (Int p)) ∧
  ((1 - p) * 20 ≤ Z.of_nat (length pokemons) →
   ∃ pre data post,
     data_of (get_api_pokemons query_page pokemons) = VObj <$> data ∧
     pokemons = pre ++ data ++ post ∧
     length data = 20%nat ∧ Z.of_nat (length post) = - p * 20) ∧
  (Z.of_nat (length pokemons) ≤ - p * 20 →
   data_of (get_api_pokemons query_page pokemons) = []) ∧
  (- p * 20 ≤ Z.of_nat (length pokemons) ≤ (1 - p) * 20 →
   ∃ data post,
     data_of (get_api_pokemons query_page pokemons) = VObj <$> data ∧
     pokemons = data ++ post ∧ Z.of_nat (length post) = - p * 20).
Proof.
  intros Hq Hp.
  assert (page_of query_page = p) as Hpage by (apply page_of_Int; [done|lia]).
  pose proof (totalPages_of_nonneg pokemons) as Hnn.
  destruct (get_api_pokemons_cases query_page pokemons) as [(H1 & H2 & _)|[_ ->]];
    rewrite Hpage in *; [lia|].
  rewrite data_of_page_response. unfold Array_slice.
  destruct (Z.ltb_spec ((p - 1) * 20) 0); [|lia].
  destruct (Z.ltb_spec ((p - 1) * 20 + 20) 0); [|lia].
  set (n := Z.of_nat (length pokemons)) in *.
  split_and!.
  - unfold page_response. eauto.
  - reflexivity.
  - intros Hn. rewrite !Z.max_l by lia.
    exists (take (Z.to_nat (n + (p - 1) * 20)) pokemons),
      (take 20 (drop (Z.to_nat (n + (p - 1) * 20)) pokemons)),
      (drop 20 (drop (Z.to_nat (n + (p - 1) * 20)) pokemons)).
    replace (Z.to_nat (n + ((p - 1) * 20 + 20) - (n + (p - 1) * 20))) with 20%nat by lia.
    split_and!; [done|by rewrite !take_drop| |].
    + rewrite length_take, length_drop. lia.
    + rewrite !length_drop. lia.
  - intros Hn. rewrite !Z.max_r by lia. done.
  - intros Hn. rewrite (Z.max_r (n + (p - 1) * 20)) by lia.
    rewrite (Z.max_l (n + ((p - 1) * 20 + 20))) by lia. rewrite drop_0.
    exists (take (Z.to_nat (n + ((p - 1) * 20 + 20) - 0)) pokemons),
      (drop (Z.to_nat (n + ((p - 1) * 20 + 20) - 0)) pokemons).
    split_and!; [done|by rewrite take_drop|]. rewrite length_drop. lia.
Qed.

Lemma negative_page_counts_from_end_witness :
  parseInt (ToString_param (Some "-1")) = Int (-1) ∧ -1 < 0 ∧
  (1 - -1) * 20 ≤ Z.of_nat (length (store25 ++ store25)) ∧
  currentPage_of (get_api_pokemons (Some "-1") (store25 ++ store25)) =
    Some (VNum (Int (-1))) ∧
  ∃ pre data post,
    data_of (get_api_pokemons (Some "-1") (store25 ++ store25)) = VObj <$> data ∧
    store25 ++ store25 = pre ++ data ++ post ∧
    length data = 20%nat ∧ Z.of_nat (length post) = - -1 * 20.
Proof.
  assert ((1 - -1) * 20 ≤ Z.of_nat (length (store25 ++ store25))) as Hn by by vm_compute.
  split; [reflexivity|]. split; [lia|]. split; [exact Hn|].
  destruct (negative_page_counts_from_end (Some "-1") (store25 ++ store25) (-1)
              eq_refl ltac:(lia)) as (_ & Hcurrent & Hfull & _).
  split; [exact Hcurrent|exact (Hfull Hn)].
Defined.

(** ** Creation, update and deletion together *)

Section mutations.
Context `{!Runtime}.

(** X11. An id that the payload carries is not read: the creation does the
    same with and without it. *)
Theorem create_ignores_payload_id (body : record) (v : value) (st : state) :
  post_api_pokemons (<["id" := v]> body) st = post_api_pokemons body st ∧
  post_api_pokemons (delete "id" body) st = post_api_pokemons body st.
Proof.
  unfold post_api_pokemons. split.
  - rewrite !lookup_insert_ne by done.
    destruct (_ || _); [done|].
    destruct (newId_of (pokemons st)); [|done]. by rewrite insert_insert_eq.
  - rewrite !lookup_delete_ne by done.
    destruct (_ || _); [done|].
    destruct (newId_of (pokemons st)); [|done]. by rewrite insert_delete_eq.
Qed.

(** X25. Past the safe integers the addition that makes the new id rounds:
    on a store whose ids are integers, the greatest of them 2^53, a
    creation gives the id 2^53 a second time. *)
Theorem create_repeats_greatest_id (body : record) (st : state) (ns : list Z) :
  ToBoolean (body !! "name") = true →
  ToBoolean (body !! "type") = true →
  ToBoolean (body !! "base") = true →
  ids_of (pokemons st) = id_values ns →
  2 ^ 53 ∈ ns → (∀ n, n ∈ ns → n ≤ 2 ^ 53) →
  (post_api_pokemons body st).2 =
    res_json 201 (VObj (<["id" := VNum (Int (2 ^ 53))]> body)) ∧
  ¬ NoDup (ids_of (pokemons (post_api_pokemons body st).1)).
Proof.
  intros Hn Ht Hb Hids Hin Hmax.
  destruct (newId_of_rounds (pokemons st) ns Hids) as (m & Hm & Hm').
  assert (m = 2 ^ 53 + 1) as ->.
  { destruct ns as [|x xs]; [by apply elem_of_nil in Hin|].
    destruct Hm' as [Hm1 Hm2]. apply Hm2 in Hin. apply Hmax in Hm1. lia. }
  change (double_of_Z (2 ^ 53 + 1)) with (2 ^ 53) in Hm.
  rewrite post_api_pokemons_valid, Hm by done. simpl. split; [done|].
  apply list_elem_of_lookup in Hin as [i Hi].
  intros Hnodup.
  assert (ids_of (pokemons st ++ [<["id" := VNum (Int (2 ^ 53))]> body]) !! i =
            Some (Some (VNum (Int (2 ^ 53))))) as Hi1.
  { unfold ids_of. rewrite fmap_app. fold (ids_of (pokemons st)).
    rewrite Hids, lookup_app_l.
    - unfold id_values. by rewrite list_lookup_fmap, Hi.
    - unfold id_values. rewrite length_fmap. by eapply lookup_lt_Some. }
  assert (ids_of (pokemons st ++ [<["id" := VNum (Int (2 ^ 53))]> body])
            !! length (pokemons st) =
            Some (Some (VNum (Int (2 ^ 53))))) as Hi2.
  { unfold ids_of. rewrite list_lookup_fmap, lookup_app_r, Nat.sub_diag by done.
    simpl. by rewrite lookup_insert_eq. }
  pose proof (NoDup_lookup _ _ _ _ Hnodup Hi1 Hi2) as ->.
  apply lookup_lt_Some in Hi.
  apply (f_equal length) in Hids. unfold ids_of, id_values in Hids.
  rewrite !length_fmap in Hids. lia.
Qed.

(** The record that a creation appends is the first with its id. *)
Lemma first_with_id_created (pokemons : list record) (ns : list Z) (body : record) (n : Z) :
  ids_of pokemons = id_values ns → (∀ k, k ∈ ns → k < n) →
  first_with_id n (pokemons ++ [<["id" := VNum (Int n)]> body]) (length pokemons)
    (<["id" := VNum (Int n)]> body).
Proof.
  intros Hids Hlt. split_and!.
  - by rewrite lookup_app_r, Nat.sub_diag.
  - apply lookup_insert_eq.
  - intros j q Hj Hj'. rewrite lookup_app_l in Hj by done.
    destruct (ids_of_lookup _ _ _ _ Hids Hj) as (k & Hk & ->).
    intros [= ->]. apply list_elem_of_lookup_2, Hlt in Hk. lia.
Qed.

(** X12. On a store whose ids are safe integers, deleting the record that
    has just been created, by the id it was given, leaves the store as it
    was before the creation; the next creation is given the same id again. *)
Theorem create_then_delete (body : record) (st : state) (ns : list Z)
    (created : record) (n : Z) :
  ids_of (pokemons st) = id_values ns → Forall safe_integer ns →
  (post_api_pokemons body st).2 = res_json 201 (VObj created) →
  created !! "id" = Some (VNum (Int n)) →
  (delete_api_pokemons_id (pretty n) (post_api_pokemons body st).1).2 =
    res_json 200 (VObj {[ "message" := VStr "Pokémon supprimé";
                          "pokemon" := VObj created ]}) ∧
  pokemons (delete_api_pokemons_id (pretty n) (post_api_pokemons body st).1).1 =
    pokemons st ∧
  ∀ body' created',
    (post_api_pokemons body'
       (delete_api_pokemons_id (pretty n) (post_api_pokemons body st).1).1).2 =
      res_json 201 created' →
    created' = VObj (<["id" := VNum (Int n)]> body').
Proof.
  intros Hids Hsafe Hpost Hcreated.
  destruct (newId_of_integers (pokemons st) ns Hids Hsafe) as (m & Hm & Hmax).
  unfold post_api_pokemons in Hpost |- *. destruct (_ || _); [discriminate Hpost|].
  rewrite Hm in Hpost |- *. simpl in Hpost. injection Hpost as <-.
  rewrite lookup_insert_eq in Hcreated. injection Hcreated as ->.
  assert (∀ k, k ∈ ns → k < n) as Hlt.
  { intros k Hk. destruct ns as [|x xs]; [by apply elem_of_nil in Hk|].
    destruct Hmax as [_ Hmax]. apply Hmax in Hk. lia. }
  cbn [fst snd].
  rewrite (delete_api_pokemons_id_found (pretty n)
             (writeFileSync (set_pokemons st
                (pokemons st ++ [<["id" := VNum (Int n)]> body])))
             n (length (pokemons st))
             (<["id" := VNum (Int n)]> body) (parseInt_pretty n)
             (first_with_id_created _ ns body n Hids Hlt)).
  cbn [fst snd writeFileSync set_pokemons pokemons]. rewrite delete_take_drop, take_app_length, drop_ge, app_nil_r
    by (rewrite length_app; simpl; lia).
  split_and!; [done..|].
  intros body' created'. destruct (_ || _); [intros Hc; discriminate Hc|].
  simpl. rewrite Hm. simpl. by intros [= <-].
Qed.


(** After an update that does not touch the id, the same text selects the
    same place of the store. *)
Lemma list_find_has_id_insert (id : string) (pokemons : list record) (i : nat)
    (p p' : record) :
  list_find (has_id id) pokemons = Some (i, p) → p' !! "id" = p !! "id" →
  list_find (has_id id) (<[i := p']> pokemons) = Some (i, p').
Proof.
  intros (Hi & Hp & Hfirst)%list_find_Some Hid. apply list_find_Some. split_and!.
  - apply list_lookup_insert_eq. by eapply lookup_lt_Some.
  - unfold has_id in *. by rewrite Hid.
  - intros j q Hj Hlt. rewrite list_lookup_insert_ne in Hj by lia. by eapply Hfirst.
Qed.


End mutations.

Lemma create_then_delete_witness :
  ids_of (pokemons (loaded store3)) = id_values [1; 2; 3] ∧
  Forall safe_integer [1; 2; 3] ∧
  (@post_api_pokemons ascii_runtime mew (loaded store3)).2 =
    res_json 201 (VObj (<["id" := VNum (Int 4)]> mew)) ∧
  pokemons (delete_api_pokemons_id (pretty 4)
              (@post_api_pokemons ascii_runtime mew (loaded store3)).1).1 =
    pokemons (loaded store3).
Proof.
  assert ((@post_api_pokemons ascii_runtime mew (loaded store3)).2 =
            res_json 201 (VObj (<["id" := VNum (Int 4)]> mew))) as Hpost by by vm_compute.
  split; [reflexivity|]. split; [exact safe_integer_123|]. split; [exact Hpost|].
  exact (proj1 (proj2 (@create_then_delete ascii_runtime mew (loaded store3) [1; 2; 3]
                         (<["id" := VNum (Int 4)]> mew) 4 eq_refl safe_integer_123
                         Hpost eq_refl))).
Defined.

Lemma create_repeats_greatest_id_witness :
  ids_of (pokemons (loaded [pokemon 1 pikachu; pokemon (2 ^ 53) raichu])) =
    id_values [1; 2 ^ 53] ∧
  2 ^ 53 ∈ [1; 2 ^ 53] ∧
  (@post_api_pokemons ascii_runtime mew
     (loaded [pokemon 1 pikachu; pokemon (2 ^ 53) raichu])).2 =
    res_json 201 (VObj (<["id" := VNum (Int (2 ^ 53))]> mew)).
Proof.
  assert (2 ^ 53 ∈ [1; 2 ^ 53]) as Hin by (right; left).
  split; [reflexivity|]. split; [exact Hin|].
  refine (proj1 (@create_repeats_greatest_id ascii_runtime mew
                   (loaded [pokemon 1 pikachu; pokemon (2 ^ 53) raichu]) [1; 2 ^ 53]
                   eq_refl eq_refl eq_refl eq_refl Hin _)).
  intros n Hn. repeat (apply elem_of_cons in Hn as [->|Hn]; [by vm_compute|]).
  by apply elem_of_nil in Hn.
Defined.


(** ** Sessions *)

Section sessions.
Context `{!Runtime}.

Lemma run_cons (req : request) (reqs : list request) (st : state) :
  run (req :: reqs) st =
    ((run reqs (app req st).1).1, (app req st).2 :: (run reqs (app req st).1).2).
Proof. simpl. destruct (app req st) as [st' o]. simpl. by destruct (run reqs st'). Qed.

(** What a request does to the store: nothing, or one of the three
    changes, each followed by the writing of the file. *)
Lemma app_cases (req : request) (st : state) :
  ((app req st).1 = st ∧ ∀ v, (app req st).2 ≠ res_json 201 v) ∨
  (∃ body newId, req = POST_pokemons body ∧ newId_of (pokemons st) = Some newId ∧
     (app req st).2 = res_json 201 (VObj (<["id" := VNum newId]> (express_json body))) ∧
     (app req st).1 = writeFileSync (set_pokemons st
       (pokemons st ++ [<["id" := VNum newId]> (express_json body)]))) ∨
  (∃ id body i p, req = PUT_pokemons_id id body ∧
     list_find (has_id id) (pokemons st) = Some (i, p) ∧
     (app req st).2 = res_json 200 (VObj (Object_assign p (express_json body))) ∧
     (app req st).1 = writeFileSync (set_pokemons st
       (<[i := Object_assign p (express_json body)]> (pokemons st)))) ∨
  (∃ id i p, req = DELETE_pokemons_id id ∧
     list_find (has_id id) (pokemons st) = Some (i, p) ∧
     (app req st).2 = res_json 200 (VObj {[ "message" := VStr "Pokémon supprimé";
                                            "pokemon" := VObj p ]}) ∧
     (app req st).1 = writeFileSync (set_pokemons st (delete i (pokemons st)))).
Proof.
  destruct req as [page|name|id|body|id body|id]; simpl.
  - left. split; [done|]. unfold get_api_pokemons. by destruct (_ && _).
  - left. split; [done|]. rewrite get_api_pokemons_search_cases.
    destruct (Array_filter _ _) as [results|]; [|done].
    unfold search_response. by case_decide.
  - left. split; [done|]. unfold get_api_pokemons_id.
    by destruct (list_find _ _) as [[i p]|].
  - unfold post_api_pokemons. destruct (_ || _); [by left|].
    destruct (newId_of (pokemons st)) as [newId|] eqn:HnewId; [|by left].
    right; left. by exists body, newId.
  - unfold put_api_pokemons_id.
    destruct (list_find _ _) as [[i p]|] eqn:Hfind; [|by left].
    right; right; left. by exists id, body, i, p.
  - unfold delete_api_pokemons_id.
    destruct (list_find _ _) as [[i p]|] eqn:Hfind; [|by left].
    right; right; right. by exists id, i, p.
Qed.

Lemma created_of_cons (o : outcome) (os : list outcome) :
  created_of (o :: os) =
    match o with
    | res_json status (VObj p) =>
        if decide (status = 201) then p :: created_of os else created_of os
    | _ => created_of os
    end.
Proof.
  unfold created_of. simpl. destruct o as [status []|]; try done. by case_decide.
Qed.

(** X14. A request that is answered with an error status, or whose handler
    ends with a [TypeError], changes neither the store nor the file. *)
Theorem failure_changes_nothing (req : request) (st : state) :
  is_failure (app req st).2 → (app req st).1 = st.
Proof.
  intros Hfail.
  destruct (app_cases req st) as
    [[Hst _]|[(body & newId & _ & _ & Ho & _)|[(id & body & i & p & _ & _ & Ho & _)|
     (id & i & p & _ & _ & Ho & _)]]]; [done|..];
    rewrite Ho in Hfail; simpl in Hfail; lia.
Qed.

Lemma file_is_written_startup (file : json) (st : state) :
  startup file = Some st → file_is_written st.
Proof.
  unfold startup, file_is_written. destruct file as [| | | |l|]; try done.
  destruct (mapM _ l) as [records|] eqn:Hl; [|done]. intros [= <-]. simpl. f_equal.
  apply mapM_Some in Hl. induction Hl as [|j r l records Hj _ IH]; [done|].
  rewrite !fmap_cons, <-IH. f_equal. destruct j as [| | | | |m]; try done.
  injection Hj as <-. simpl. f_equal. rewrite <-map_fmap_compose.
  rewrite <-(map_fmap_id m) at 1. apply map_fmap_ext. intros k j _.
  simpl. by rewrite JSON_stringify_parse.
Qed.

Lemma file_is_written_app (req : request) (st : state) :
  file_is_written st → file_is_written (app req st).1.
Proof.
  intros Hst.
  destruct (app_cases req st) as
    [[-> _]|[(body & newId & _ & _ & _ & ->)|[(id & body & i & p & _ & _ & _ & ->)|
     (id & i & p & _ & _ & _ & ->)]]]; done.
Qed.

(** X15. From the loading of a file whose numbers are integers that a double
    holds, whatever is requested, the file holds what [JSON.stringify] makes
    of the array in memory. *)
Theorem file_always_written (file : json) (st : state) (reqs : list request) :
  startup file = Some st → exact file → file_is_written (run reqs st).1.
Proof.
  intros Hst%file_is_written_startup _. revert st Hst.
  induction reqs as [|req reqs IH]; intros st Hst; [done|].
  rewrite run_cons. simpl. by apply IH, file_is_written_app.
Qed.

End sessions.

Section invariants.
Context `{!Runtime}.

Lemma rereadable_startup (file : json) (st : state) :
  startup file = Some st → Forall rereadable (pokemons st).
Proof.
  unfold startup. destruct file as [| | | |l|]; try done.
  destruct (mapM _ l) as [records|] eqn:Hl; [|done]. intros [= <-]. simpl.
  apply mapM_Some in Hl. induction Hl as [|j r l records Hj _ IH]; [done|].
  constructor; [|done]. destruct j as [| | | | |m]; try done.
  injection Hj as <-. apply rereadable_iff. by exists m.
Qed.

Lemma rereadable_express_json (body : gmap string json) :
  rereadable (express_json body).
Proof. apply rereadable_iff. by exists body. Qed.

Lemma in_sync_written (st : state) :
  file_is_written st → Forall rereadable (pokemons st) → in_sync st.
Proof.
  intros Hfile Hst. apply in_sync_rereadable in Hst.
  unfold in_sync, file_is_written in *. by rewrite Hfile.
Qed.

(** The ids stay integers under a request that writes no other value over
    an id, and the records stay what the file gives back. *)
Lemma integers_app (req : request) (st : state) (ns : list Z) :
  keeps_ids_integer req →
  Forall rereadable (pokemons st) → ids_of (pokemons st) = id_values ns →
  Forall rereadable (pokemons (app req st).1) ∧
  ∃ ns', ids_of (pokemons (app req st).1) = id_values ns'.
Proof.
  intros Hreq Hst Hids.
  destruct (app_cases req st) as
    [[-> _]|[(body & newId & -> & HnewId & _ & ->)|[(id & body & i & p & -> & Hfind & _ & ->)|
     (id & i & p & _ & Hfind & _ & ->)]]]; simpl.
  - eauto.
  - destruct (newId_of_rounds (pokemons st) ns Hids) as (m & Hm & _).
    rewrite HnewId in Hm. injection Hm as ->. split.
    + apply Forall_app. split; [done|]. apply Forall_singleton, rereadable_insert_id.
      apply rereadable_express_json.
    + exists (ns ++ [double_of_Z m]). unfold ids_of, id_values in *.
      rewrite !fmap_app, Hids. simpl. by rewrite lookup_insert_eq.
  - apply list_find_Some in Hfind as (Hi & (n & _ & Hp)%has_id_spec & _). split.
    + apply Forall_insert; [done|]. apply rereadable_Object_assign.
      * rewrite Forall_lookup in Hst. by eapply Hst.
      * apply rereadable_express_json.
    + simpl in Hreq. unfold ids_of, id_values in *. rewrite list_fmap_insert.
      rewrite Object_assign_id. unfold express_json.
      destruct Hreq as [_ [Hnone|[m Hm]]].
      * exists ns. rewrite lookup_union_r by (by rewrite lookup_fmap, Hnone).
        rewrite <-Hids. apply list_insert_id. by rewrite list_lookup_fmap, Hi.
      * exists (<[i := m]> ns).
        rewrite (lookup_union_Some_l _ _ _ (VNum (Int m)))
          by (by rewrite lookup_fmap, Hm).
        by rewrite Hids, list_fmap_insert.
  - split; [by apply Forall_delete|]. exists (delete i ns).
    unfold ids_of, id_values in *. by rewrite !list_fmap_delete, Hids.
Qed.

(** X16. When the file holds records whose ids are integers and whose
    numbers are integers that a double holds, when the bodies of the
    requests hold such numbers only, and no update writes anything but an
    integer over an id, then whatever else is requested the file parsed
    again is the array in memory, and the ids still are integers. *)
Theorem file_always_mirrors_store (file : json) (st : state) (ns : list Z)
    (reqs : list request) :
  startup file = Some st → exact file → ids_of (pokemons st) = id_values ns →
  Forall keeps_ids_integer reqs →
  in_sync (run reqs st).1 ∧ ∃ ns', ids_of (pokemons (run reqs st).1) = id_values ns'.
Proof.
  intros Hstart _ Hids Hreqs.
  pose proof (file_is_written_startup _ _ Hstart) as Hfile.
  pose proof (rereadable_startup _ _ Hstart) as Hst. clear Hstart.
  revert st ns Hids Hfile Hst.
  induction Hreqs as [|req reqs Hreq _ IH]; intros st ns Hids Hfile Hst.
  - split; [by apply in_sync_written|by exists ns].
  - rewrite run_cons. simpl.
    destruct (integers_app req st ns Hreq Hst Hids) as (Hst' & ns' & Hids').
    apply (IH _ ns'); [done| |done]. by apply file_is_written_app.
Qed.

Lemma unaddressable_has_id (id : string) (p : record) :
  unaddressable p → ¬ has_id id p.
Proof.
  intros [Hp|[Hp|(v & Hp & Hv)]] (n & _ & Hn)%has_id_spec;
    rewrite Hp in Hn; try done.
  injection Hn as ->. by eapply Hv.
Qed.

Lemma unaddressable_app (req : request) (st : state) (p : record) :
  unaddressable p → p ∈ pokemons st → p ∈ pokemons (app req st).1.
Proof.
  intros Hp Hin.
  destruct (app_cases req st) as
    [[-> _]|[(body & newId & _ & _ & _ & ->)|[(id & body & i & q & _ & Hfind & _ & ->)|
     (id & i & q & _ & Hfind & _ & ->)]]]; simpl; [done|..].
  - apply elem_of_app. by left.
  - apply list_find_Some in Hfind as (Hi & Hq & _).
    apply list_elem_of_lookup in Hin as [j Hj].
    destruct (decide (i = j)) as [->|Hne].
    { rewrite Hi in Hj. injection Hj as ->. by apply unaddressable_has_id in Hq. }
    apply (list_elem_of_lookup_2 _ j). by rewrite list_lookup_insert_ne.
  - apply list_find_Some in Hfind as (Hi & Hq & _).
    apply list_elem_of_lookup in Hin as [j Hj].
    destruct (decide (i = j)) as [->|Hne].
    { rewrite Hi in Hj. injection Hj as ->. by apply unaddressable_has_id in Hq. }
    destruct (decide (j < i)%nat).
    + apply (list_elem_of_lookup_2 _ j). by rewrite list_lookup_delete_lt.
    + apply (list_elem_of_lookup_2 _ (pred j)).
      rewrite list_lookup_delete_ge by lia. by replace (S (pred j)) with j by lia.
Qed.

(** X17. A record that has no id, or whose id is not a number or is [NaN],
    is out of the reach of the requests by id: whatever is requested it
    stays in the store, and no id fetches it. *)
Theorem unaddressable_record_stays (p : record) (st : state) (reqs : list request) :
  unaddressable p → p ∈ pokemons st →
  p ∈ pokemons (run reqs st).1 ∧
  ∀ id, get_api_pokemons_id id (pokemons (run reqs st).1) ≠ res_json 200 (VObj p).
Proof.
  intros Hp Hin. split.
  - revert st Hin. induction reqs as [|req reqs IH]; intros st Hin; [done|].
    rewrite run_cons. simpl. by apply IH, unaddressable_app.
  - intros id. unfold get_api_pokemons_id.
    destruct (list_find _ _) as [[i q]|] eqn:Hfind; [|done].
    intros [= ->]. apply list_find_Some in Hfind as (_ & Hq & _).
    by apply unaddressable_has_id in Hq.
Qed.

Lemma Math_max_NaN (x : number) (xs : list number) :
  x = NaN ∨ NaN ∈ xs → Math_max x xs = NaN.
Proof.
  unfold Math_max. revert x. induction xs as [|y xs IH]; intros x; simpl.
  - intros [->|Hin]; [done|by apply elem_of_nil in Hin].
  - intros [->|[<-|Hin]%elem_of_cons]; apply IH; [by left|left|by right].
    by destruct x.
Qed.

Lemma newId_of_NaN (pokemons : list record) (p : record) (newId : number) :
  p ∈ pokemons → ToNumber (p !! "id") = Some NaN →
  newId_of pokemons = Some newId → newId = NaN.
Proof.
  intros Hin Hp. unfold newId_of.
  destruct pokemons as [|q pokemons]; [by apply elem_of_nil in Hin|]. simpl.
  destruct (ToNumber (q !! "id")) as [x|] eqn:Hx; [|done].
  destruct (mapM _ _) as [xs|] eqn:Hxs; [|done]. intros [= <-].
  rewrite Math_max_NaN; [done|].
  apply elem_of_cons in Hin as [->|Hin]; [left; congruence|right].
  apply mapM_Some in Hxs.
  apply (list_elem_of_fmap_2 (λ p : record, p !! "id")) in Hin.
  apply list_elem_of_lookup in Hin as [i Hi].
  destruct (Forall2_lookup_l _ _ _ _ _ Hxs Hi) as (y & Hy & Hy').
  rewrite Hp in Hy'. injection Hy' as <-. by eapply list_elem_of_lookup_2.
Qed.

Lemma ToNumber_NaN_unaddressable (p : record) :
  ToNumber (p !! "id") = Some NaN → unaddressable p.
Proof.
  unfold unaddressable.
  destruct (p !! "id") as [[| |[|n]| | |]|]; try discriminate; intros _;
    first [ by left | by right; left | right; right; by eexists ].
Qed.

(** X18. A record whose id [Math.max] reads as [NaN] (an id that is [NaN],
    that is missing, or that is not numeric text) spoils every creation that
    follows, whatever else is requested in between: each record that is
    created gets the id [NaN]. *)
Theorem NaN_id_spoils_creation (p : record) (st : state) (reqs : list request) :
  p ∈ pokemons st → ToNumber (p !! "id") = Some NaN →
  Forall (λ created : record, created !! "id" = Some (VNum NaN))
    (created_of (run reqs st).2).
Proof.
  intros Hin Hp. revert st Hin.
  induction reqs as [|req reqs IH]; intros st Hin; [by constructor|].
  rewrite run_cons. cbn [snd]. rewrite created_of_cons.
  pose proof (unaddressable_app req st p (ToNumber_NaN_unaddressable p Hp) Hin) as Hin'.
  specialize (IH _ Hin').
  destruct (app_cases req st) as
    [[_ Ho]|[(body & newId & _ & HnewId & Ho & _)|[(id & body & i & q & _ & _ & Ho & _)|
     (id & i & q & _ & _ & Ho & _)]]].
  - destruct (app req st).2 as [status []|]; try done.
    case_decide as Hs; [|done]. subst status. by destruct (Ho (VObj m) eq_refl).
  - rewrite Ho. simpl. constructor; [|done].
    rewrite lookup_insert_eq. do 2 f_equal. exact (newId_of_NaN _ p _ Hin Hp HnewId).
  - by rewrite Ho.
  - by rewrite Ho.
Qed.

End invariants.

Lemma failure_changes_nothing_witness :
  is_failure (@app ascii_runtime (DELETE_pokemons_id "7") (loaded store3)).2 ∧
  (@app ascii_runtime (DELETE_pokemons_id "7") (loaded store3)).1 = loaded store3.
Proof.
  assert (is_failure (@app ascii_runtime (DELETE_pokemons_id "7") (loaded store3)).2)
    as Hfail by by vm_compute.
  split; [exact Hfail|].
  exact (@failure_changes_nothing ascii_runtime (DELETE_pokemons_id "7") (loaded store3)
           Hfail).
Defined.

Lemma startup_store3_file : startup store3_file = Some (loaded store3).
Proof. by vm_compute. Qed.

Lemma exact_store3_file : exact store3_file.
Proof. by vm_compute. Qed.

Lemma exact_mew_body : exact (JObj mew_body).
Proof. by vm_compute. Qed.

Lemma exact_fire_body : exact (JObj fire_body).
Proof. by vm_compute. Qed.

Lemma file_always_written_witness :
  startup store3_file = Some (loaded store3) ∧ exact store3_file ∧
  file_is_written (@run ascii_runtime session (loaded store3)).1.
Proof.
  split; [exact startup_store3_file|]. split; [exact exact_store3_file|].
  exact (@file_always_written ascii_runtime store3_file (loaded store3) session
           startup_store3_file exact_store3_file).
Defined.

Lemma keeps_ids_integer_session : Forall keeps_ids_integer session.
Proof.
  unfold session. repeat apply Forall_cons_2; try apply Forall_nil_2; simpl;
    first [ exact I | exact exact_mew_body | split; [exact exact_fire_body|by left] ].
Qed.

Lemma file_always_mirrors_store_witness :
  startup store3_file = Some (loaded store3) ∧ exact store3_file ∧
  ids_of (pokemons (loaded store3)) = id_values [1; 2; 3] ∧
  Forall keeps_ids_integer session ∧
  in_sync (@run ascii_runtime session (loaded store3)).1.
Proof.
  split; [exact startup_store3_file|]. split; [exact exact_store3_file|].
  split; [reflexivity|]. split; [exact keeps_ids_integer_session|].
  exact (proj1 (@file_always_mirrors_store ascii_runtime store3_file (loaded store3)
                  [1; 2; 3] session startup_store3_file exact_store3_file eq_refl
                  keeps_ids_integer_session)).
Defined.

Lemma unaddressable_stuck : unaddressable stuck.
Proof. right; right. exists (VStr "abc"). by split. Qed.

Lemma stuck_in_store : stuck ∈ pokemons (loaded [stuck; pokemon 2 raichu; pokemon 3 eevee]).
Proof. by left. Qed.

Lemma unaddressable_record_stays_witness :
  unaddressable stuck ∧
  stuck ∈ pokemons (loaded [stuck; pokemon 2 raichu; pokemon 3 eevee]) ∧
  stuck ∈ pokemons (@run ascii_runtime session
                      (loaded [stuck; pokemon 2 raichu; pokemon 3 eevee])).1.
Proof.
  split; [exact unaddressable_stuck|]. split; [exact stuck_in_store|].
  exact (proj1 (@unaddressable_record_stays ascii_runtime stuck
                  (loaded [stuck; pokemon 2 raichu; pokemon 3 eevee]) session
                  unaddressable_stuck stuck_in_store)).
Defined.

Lemma NaN_id_spoils_creation_witness :
  stuck ∈ pokemons (loaded [stuck; pokemon 2 raichu; pokemon 3 eevee]) ∧
  @ToNumber ascii_runtime (stuck !! "id") = Some NaN ∧
  Forall (λ created : record, created !! "id" = Some (VNum NaN))
    (created_of (@run ascii_runtime session
                   (loaded [stuck; pokemon 2 raichu; pokemon 3 eevee])).2) ∧
  length (created_of (@run ascii_runtime session
                        (loaded [stuck; pokemon 2 raichu; pokemon 3 eevee])).2) = 2%nat.
Proof.
  split; [exact stuck_in_store|]. split; [reflexivity|]. split.
  - exact (@NaN_id_spoils_creation ascii_runtime stuck
             (loaded [stuck; pokemon 2 raichu; pokemon 3 eevee]) session
             stuck_in_store eq_refl).
  - by vm_compute.
Defined.

(** ** Searching *)

Lemma String_app_nil_r (s : string) : s +:+ "" = s.
Proof.
  induction s as [|c s IH]; [done|].
  change (String c (s +:+ "") = String c s). by rewrite IH.
Qed.

Lemma substring_refl (s : string) : substring s s.
Proof. exists "", "". by rewrite String_app_nil_r. Qed.

Lemma substring_trans (s1 s2 s3 : string) :
  substring s1 s2 → substring s2 s3 → substring s1 s3.
Proof.
  intros (pre1 & post1 & ->) (pre2 & post2 & ->).
  exists (pre2 +:+ pre1), (post1 +:+ post2). by rewrite !String_app_assoc.
Qed.

Section searching.
Context `{!Runtime}.

Lemma results_of_search (name : string) (pokemons : list record) :
  Forall well_named pokemons →
  results_of (get_api_pokemons_search name pokemons) =
    VObj <$> filter (matches name) pokemons.
Proof.
  intros Hwn. rewrite get_api_pokemons_search_cases.
  rewrite (Array_filter_total _ (matches name)).
  - unfold search_response. case_decide as Hr; [by rewrite Hr|done].
  - intros p Hp. apply name_matches_well_named.
    rewrite Forall_forall in Hwn. by apply Hwn.
Qed.

Lemma matches_narrower (name1 name2 : string) (p : record) :
  substring (toLowerCase name1) (toLowerCase name2) →
  matches name2 p → matches name1 p.
Proof.
  intros Hsub Hm. unfold matches in *. eapply Exists_impl; [done|]. intros lang.
  unfold name_contains. destruct (name_value p lang) as [s|]; [|done].
  by apply substring_trans.
Qed.

(** X19. On a store whose records hold their four names, a longer query
    narrows the search: when a query occurs in another, letter case aside,
    what the search finds for the longer one is among what it finds for
    the shorter one, in the same order. *)
Theorem search_narrows (name1 name2 : string) (pokemons : list record) :
  Forall well_named pokemons →
  substring (toLowerCase name1) (toLowerCase name2) →
  results_of (get_api_pokemons_search name2 pokemons) `sublist_of`
    results_of (get_api_pokemons_search name1 pokemons).
Proof.
  intros Hwn Hsub. rewrite !results_of_search by done. apply fmap_sublist.
  rewrite <-(list_filter_filter_l (matches name2) (matches name1))
    by (intros p; by apply matches_narrower).
  apply sublist_filter.
Qed.

(** X20. A record that has been created with its four names is found by the
    search of any of them, when the records of the store hold theirs. *)
Theorem create_then_search (body : record) (st : state) (created : record)
    (lang s : string) :
  Forall well_named (pokemons st) →
  (post_api_pokemons body st).2 = res_json 201 (VObj created) →
  well_named created → lang ∈ language_fields → name_value created lang = Some s →
  VObj created ∈
    results_of (get_api_pokemons_search s (pokemons (post_api_pokemons body st).1)).
Proof.
  intros Hwn Hpost Hcreated Hlang Hs.
  apply post_api_pokemons_created in Hpost as (newId & [= <-] & ->). simpl.
  rewrite results_of_search by (apply Forall_app; split; [done|by apply Forall_singleton]).
  apply list_elem_of_fmap_2, list_elem_of_filter. split.
  - apply Exists_exists. exists lang. split; [done|].
    unfold name_contains. rewrite Hs. apply substring_refl.
  - apply elem_of_app. right. by left.
Qed.

End searching.

Lemma substring_chu : substring (@toLowerCase ascii_runtime "chu") (@toLowerCase ascii_runtime "aiCHU").
Proof. by exists "ai", "". Qed.

Lemma search_narrows_witness :
  Forall well_named store3 ∧
  substring (@toLowerCase ascii_runtime "chu") (@toLowerCase ascii_runtime "aiCHU") ∧
  results_of (@get_api_pokemons_search ascii_runtime "aiCHU" store3) `sublist_of`
    results_of (@get_api_pokemons_search ascii_runtime "chu" store3) ∧
  results_of (@get_api_pokemons_search ascii_runtime "aiCHU" store3) =
    [VObj (pokemon 2 raichu)] ∧
  results_of (@get_api_pokemons_search ascii_runtime "chu" store3) =
    [VObj (pokemon 1 pikachu); VObj (pokemon 2 raichu)].
Proof.
  split; [exact well_named_store3|]. split; [exact substring_chu|]. split.
  - exact (@search_narrows ascii_runtime "chu" "aiCHU" store3 well_named_store3
             substring_chu).
  - split; by vm_compute.
Defined.

Lemma well_named_mew : well_named (<["id" := VNum (Int 4)]> mew).
Proof. apply well_named_iff. split_and!; by eexists. Qed.

Lemma create_then_search_witness :
  Forall well_named (pokemons (loaded store3)) ∧
  (@post_api_pokemons ascii_runtime mew (loaded store3)).2 =
    res_json 201 (VObj (<["id" := VNum (Int 4)]> mew)) ∧
  well_named (<["id" := VNum (Int 4)]> mew) ∧
  "japanese" ∈ language_fields ∧
  name_value (<["id" := VNum (Int 4)]> mew) "japanese" = Some "Myuu" ∧
  VObj (<["id" := VNum (Int 4)]> mew) ∈
    results_of (@get_api_pokemons_search ascii_runtime "Myuu"
                  (pokemons (@post_api_pokemons ascii_runtime mew (loaded store3)).1)).
Proof.
  assert ((@post_api_pokemons ascii_runtime mew (loaded store3)).2 =
            res_json 201 (VObj (<["id" := VNum (Int 4)]> mew))) as Hpost by by vm_compute.
  assert ("japanese" ∈ language_fields) as Hlang by (do 2 right; by left).
  split; [exact well_named_store3|]. split; [exact Hpost|].
  split; [exact well_named_mew|]. split; [exact Hlang|]. split; [reflexivity|].
  exact (@create_then_search ascii_runtime mew (loaded store3)
           (<["id" := VNum (Int 4)]> mew) "japanese" "Myuu"
           well_named_store3 Hpost well_named_mew Hlang eq_refl).
Defined.

(** ** The id of the path *)

(** X21. The id of the path is read by [parseInt]: two texts that it reads
    as the same number are served alike, and a text that it reads as [NaN]
    selects no record, even one whose id is [NaN]. *)
Theorem id_is_read_by_parseInt (id id' : string) (patch : record) (st : state) :
  parseInt id = parseInt id' →
  get_api_pokemons_id id (pokemons st) = get_api_pokemons_id id' (pokemons st) ∧
  put_api_pokemons_id id patch st = put_api_pokemons_id id' patch st ∧
  delete_api_pokemons_id id st = delete_api_pokemons_id id' st ∧
  (parseInt id = NaN →
   get_api_pokemons_id id (pokemons st) = not_found ∧
   put_api_pokemons_id id patch st = (st, not_found) ∧
   delete_api_pokemons_id id st = (st, not_found)).
Proof.
  intros Hid.
  assert (list_find (has_id id) (pokemons st) = list_find (has_id id') (pokemons st))
    as Hfind.
  { apply list_find_ext. intros p. unfold has_id. by rewrite Hid. }
  unfold get_api_pokemons_id, put_api_pokemons_id, delete_api_pokemons_id.
  rewrite Hfind. split_and!; [done..|].
  intros HNaN. rewrite <-Hfind, list_find_has_id_None; [done|].
  intros n Hn. by rewrite Hn in HNaN.
Qed.

(** X22. After an update whose patch holds no [id], a fetch by the same id
    returns the record as the update returned it. *)
Theorem update_then_get (id : string) (patch : record) (st : state) (updated : value) :
  patch !! "id" = None →
  (put_api_pokemons_id id patch st).2 = res_json 200 updated →
  get_api_pokemons_id id (pokemons (put_api_pokemons_id id patch st).1) =
    res_json 200 updated.
Proof.
  intros Hid. unfold put_api_pokemons_id.
  destruct (list_find _ _) as [[i p]|] eqn:Hfind; [|intros Hc; discriminate Hc].
  simpl. intros [= <-]. unfold get_api_pokemons_id.
  by rewrite (list_find_has_id_insert id _ i p (Object_assign p patch) Hfind)
    by (rewrite Object_assign_id; by rewrite lookup_union_r).
Qed.

(** X6. An update does not keep the ids distinct: a patch that holds the id
    of another record of the store leaves two records with that id. *)
Theorem update_can_duplicate_id (id : string) (patch : record) (st : state)
    (n m : Z) (i j : nat) (p q : record) :
  parseInt id = Int n → first_with_id n (pokemons st) i p →
  pokemons st !! j = Some q → i ≠ j → q !! "id" = Some (VNum (Int m)) →
  patch !! "id" = Some (VNum (Int m)) →
  (put_api_pokemons_id id patch st).2 = res_json 200 (VObj (Object_assign p patch)) ∧
  pokemons (put_api_pokemons_id id patch st).1 !! i = Some (Object_assign p patch) ∧
  Object_assign p patch !! "id" = Some (VNum (Int m)) ∧
  pokemons (put_api_pokemons_id id patch st).1 !! j = Some q ∧
  ¬ NoDup (ids_of (pokemons (put_api_pokemons_id id patch st).1)).
Proof.
  intros Hid Hfirst Hj Hij Hq Hpatch.
  rewrite (put_api_pokemons_id_found id patch st n i p Hid Hfirst). simpl.
  destruct Hfirst as (Hi & _ & _).
  assert (Object_assign p patch !! "id" = Some (VNum (Int m))) as Hp.
  { rewrite Object_assign_id. by apply lookup_union_Some_l. }
  assert (<[i := Object_assign p patch]> (pokemons st) !! i = Some (Object_assign p patch))
    as Hi'.
  { apply list_lookup_insert_eq. by eapply lookup_lt_Some. }
  assert (<[i := Object_assign p patch]> (pokemons st) !! j = Some q) as Hj'.
  { by rewrite list_lookup_insert_ne. }
  split_and!; [done..|].
  intros Hnodup. apply Hij. eapply NoDup_lookup; [done|..].
  - unfold ids_of. by rewrite list_lookup_fmap, Hi'; simpl.
  - unfold ids_of. rewrite list_lookup_fmap, Hj'. simpl.
    by rewrite Hp, Hq.
Qed.

Lemma id_is_read_by_parseInt_witness :
  parseInt " 2px" = parseInt "2" ∧
  get_api_pokemons_id " 2px" (pokemons (loaded store3)) =
    get_api_pokemons_id "2" (pokemons (loaded store3)) ∧
  delete_api_pokemons_id " 2px" (loaded store3) =
    delete_api_pokemons_id "2" (loaded store3).
Proof.
  split; [reflexivity|].
  destruct (id_is_read_by_parseInt " 2px" "2" fire_patch (loaded store3) eq_refl)
    as (Hget & _ & Hdelete & _).
  split; [exact Hget|exact Hdelete].
Defined.

Lemma update_then_get_witness :
  unnaming_patch !! "id" = None ∧
  (put_api_pokemons_id "2" unnaming_patch (loaded store3)).2 =
    res_json 200 (VObj (Object_assign (pokemon 2 raichu) unnaming_patch)) ∧
  get_api_pokemons_id "2"
    (pokemons (put_api_pokemons_id "2" unnaming_patch (loaded store3)).1) =
    res_json 200 (VObj (Object_assign (pokemon 2 raichu) unnaming_patch)).
Proof.
  assert ((put_api_pokemons_id "2" unnaming_patch (loaded store3)).2 =
            res_json 200 (VObj (Object_assign (pokemon 2 raichu) unnaming_patch)))
    as Hput by by vm_compute.
  split; [reflexivity|]. split; [exact Hput|].
  exact (update_then_get "2" unnaming_patch (loaded store3) _ eq_refl Hput).
Defined.

Lemma update_can_duplicate_id_witness :
  parseInt "2" = Int 2 ∧
  first_with_id 2 (pokemons (loaded store3)) 1 (pokemon 2 raichu) ∧
  pokemons (loaded store3) !! 0%nat = Some (pokemon 1 pikachu) ∧
  pokemon 1 pikachu !! "id" = Some (VNum (Int 1)) ∧
  first_id_patch !! "id" = Some (VNum (Int 1)) ∧
  pokemons (put_api_pokemons_id "2" first_id_patch (loaded store3)).1 !! 1%nat =
    Some (Object_assign (pokemon 2 raichu) first_id_patch) ∧
  ¬ NoDup (ids_of (pokemons (put_api_pokemons_id "2" first_id_patch (loaded store3)).1)).
Proof.
  split; [reflexivity|]. split; [exact first_with_id_store3|].
  split; [reflexivity|]. split; [reflexivity|]. split; [reflexivity|].
  destruct (update_can_duplicate_id "2" first_id_patch (loaded store3) 2 1 1 0
              (pokemon 2 raichu) (pokemon 1 pikachu) eq_refl first_with_id_store3
              eq_refl ltac:(lia) eq_refl eq_refl) as (_ & Hi & _ & _ & Hdup).
  split; [exact Hi|exact Hdup].
Defined.

(** ** Ids, session after session *)

Section distinct_ids.
Context `{!Runtime}.

Lemma distinct_app (req : request) (st : state) (ns : list Z) (k : nat) :
  leaves_ids req → ids_of (pokemons st) = id_values ns → NoDup ns →
  room_for (S k) ns →
  ∃ ns', ids_of (pokemons (app req st).1) = id_values ns' ∧ NoDup ns' ∧
         room_for k ns'.
Proof.
  intros Hreq Hids Hnodup [Hk Hroom].
  assert (room_for k ns) as Hroom'.
  { split; [lia|]. intros n Hn. apply Hroom in Hn. lia. }
  destruct (app_cases req st) as
    [[-> _]|[(body & newId & -> & HnewId & _ & ->)|[(id & body & i & p & -> & Hfind & _ & ->)|
     (id & i & p & _ & Hfind & _ & ->)]]]; simpl.
  - eauto.
  - assert (Forall safe_integer ns) as Hsafe.
    { apply Forall_forall. intros n Hn. apply Hroom in Hn. unfold safe_integer. lia. }
    destruct (newId_of_integers (pokemons st) ns Hids Hsafe) as (n & Hn & Hmax).
    rewrite HnewId in Hn. injection Hn as ->. exists (ns ++ [n]). split_and!.
    + unfold ids_of, id_values in *. rewrite !fmap_app, Hids. simpl.
      by rewrite lookup_insert_eq.
    + apply NoDup_app. split_and!; [done| |apply NoDup_singleton].
      intros x Hx ->%list_elem_of_singleton.
      destruct ns as [|y ys]; [by apply elem_of_nil in Hx|].
      destruct Hmax as [_ Hmax]. apply Hmax in Hx. lia.
    + split; [lia|]. intros x [Hx|Hx]%elem_of_app.
      * apply Hroom in Hx. lia.
      * apply list_elem_of_singleton in Hx as ->.
        destruct ns as [|y ys]; [subst n; lia|].
        destruct Hmax as [Hin _]. apply Hroom in Hin. lia.
  - exists ns. split_and!; [|done..]. simpl in Hreq.
    apply list_find_Some in Hfind as (Hi & _ & _).
    unfold ids_of, id_values in *. rewrite list_fmap_insert.
    rewrite Object_assign_id. unfold express_json.
    rewrite lookup_union_r by (by rewrite lookup_fmap, Hreq).
    rewrite <-Hids. apply list_insert_id. by rewrite list_lookup_fmap, Hi.
  - exists (delete i ns). split_and!.
    + unfold ids_of, id_values in *. by rewrite !list_fmap_delete, Hids.
    + eapply sublist_NoDup; [done|apply sublist_delete].
    + split; [lia|]. intros n Hn%list_elem_of_delete_inv. apply Hroom in Hn. lia.
Qed.

(** X23. On a store whose ids are distinct safe integers, as long as no
    update carries an id and the ids leave room for one creation per
    request below 2^53, whatever is requested the ids of the store stay
    distinct integers. *)
Theorem ids_stay_distinct (st : state) (ns : list Z) (reqs : list request) :
  ids_of (pokemons st) = id_values ns → NoDup ns → room_for (length reqs) ns →
  Forall leaves_ids reqs →
  ∃ ns', ids_of (pokemons (run reqs st).1) = id_values ns' ∧ NoDup ns'.
Proof.
  intros Hids Hnodup Hroom Hreqs. revert st ns Hids Hnodup Hroom.
  induction Hreqs as [|req reqs Hreq _ IH]; intros st ns Hids Hnodup Hroom.
  - by exists ns.
  - rewrite run_cons. simpl.
    destruct (distinct_app req st ns (length reqs) Hreq Hids Hnodup Hroom)
      as (ns' & Hids' & Hnodup' & Hroom').
    by apply (IH _ ns').
Qed.

(** X24. A record that has just been created is the last one of the last
    page of the listing. *)
Theorem created_is_listed_last (body : record) (st : state) (created : record) :
  (post_api_pokemons body st).2 = res_json 201 (VObj created) →
  last (data_of (get_api_pokemons
                   (Some (pretty (totalPages_of (pokemons (post_api_pokemons body st).1))))
                   (pokemons (post_api_pokemons body st).1))) =
    Some (VObj created).
Proof.
  intros Hpost.
  apply post_api_pokemons_created in Hpost as (newId & [= <-] & ->).
  cbn [fst snd writeFileSync set_pokemons pokemons].
  set (l := pokemons st ++ [created]).
  assert (l ≠ []) as Hne by (unfold l; by destruct (pokemons st)).
  apply totalPages_of_pos in Hne.
  pose proof (Math_ceil_div_spec (Z.of_nat (length l)) 20 ltac:(lia)) as [Hlo Hhi].
  change (Math_ceil_div _ 20) with (totalPages_of l) in Hlo, Hhi.
  rewrite (get_api_pokemons_pretty l (totalPages_of l)); [|lia|lia].
  rewrite data_of_page_response.
  rewrite take_ge by (rewrite length_drop; lia).
  rewrite fmap_last, last_lookup, lookup_drop, length_drop.
  replace (Z.to_nat ((totalPages_of l - 1) * 20) +
           pred (length l - Z.to_nat ((totalPages_of l - 1) * 20)))%nat
    with (pred (length l)) by lia.
  by rewrite <-last_lookup; unfold l; rewrite last_snoc.
Qed.

End distinct_ids.

Lemma leaves_ids_session : Forall leaves_ids session.
Proof. unfold session. repeat constructor. Qed.

Lemma NoDup_123 : NoDup [1; 2; 3].
Proof. by apply (bool_decide_unpack _). Qed.

Lemma room_for_session : room_for (length session) [1; 2; 3].
Proof.
  split; [by vm_compute|]. intros n Hn.
  repeat (apply elem_of_cons in Hn as [->|Hn]; [by vm_compute|]).
  by apply elem_of_nil in Hn.
Qed.

Lemma ids_stay_distinct_witness :
  ids_of (pokemons (loaded store3)) = id_values [1; 2; 3] ∧ NoDup [1; 2; 3] ∧
  room_for (length session) [1; 2; 3] ∧
  Forall leaves_ids session ∧
  ∃ ns', ids_of (pokemons (@run ascii_runtime session (loaded store3)).1) = id_values ns' ∧
         NoDup ns'.
Proof.
  split; [reflexivity|]. split; [exact NoDup_123|].
  split; [exact room_for_session|]. split; [exact leaves_ids_session|].
  exact (@ids_stay_distinct ascii_runtime (loaded store3) [1; 2; 3] session
           eq_refl NoDup_123 room_for_session leaves_ids_session).
Defined.

Lemma created_is_listed_last_witness :
  (@post_api_pokemons ascii_runtime mew (loaded store3)).2 =
    res_json 201 (VObj (<["id" := VNum (Int 4)]> mew)) ∧
  last (data_of (get_api_pokemons
                   (Some (pretty (totalPages_of
                      (pokemons (@post_api_pokemons ascii_runtime mew (loaded store3)).1))))
                   (pokemons (@post_api_pokemons ascii_runtime mew (loaded store3)).1))) =
    Some (VObj (<["id" := VNum (Int 4)]> mew)).
Proof.
  assert ((@post_api_pokemons ascii_runtime mew (loaded store3)).2 =
            res_json 201 (VObj (<["id" := VNum (Int 4)]> mew))) as Hpost by by vm_compute.
  split; [exact Hpost|].
  exact (@created_is_listed_last ascii_runtime mew (loaded store3) _ Hpost).
Defined.
